(** * The transcription agent of User-Weave, embedded in Rocq

    This development models [src/agents/transcription_agent.py]: the
    [TranscriptionAgent] class that joins a LiveKit room, opens one
    speech-to-text conversation per audio track, publishes interim and
    final transcripts to the room and appends final transcripts to a JSON
    file per room and day.  The disk is part of the model: a path is what
    [pathlib] makes of the name, the file system says which file it leads
    to, and [mkdir], [open], [json.load] and [json.dump] can each fail.

    The agent is an [asyncio] program: every [async def] is a coroutine
    that runs without interruption until it awaits something that is not
    ready, at which point the event loop may run any other task.  A
    coroutine is therefore embedded as a resumption: a function from the
    shared state to a tree whose inner nodes are the suspension points
    (the [await]s) and whose leaves are the return or the exception that
    ends it.  The same definition is run alone, run against arbitrary
    interference at its suspension points, or scheduled in a pool of tasks
    by a model of the event loop. *)

From Stdlib Require Import Floats.
From stdpp Require Import gmap list strings.

Set Warnings "-register-all".
Set Default Proof Using "Type".

(** ** Python strings *)

(** A Python [str] is a sequence of Unicode code points. *)
Abbreviation pystr := (list N).

Fixpoint py (s : string) : pystr :=
  match s with
  | EmptyString => []
  | String a s' => Ascii.N_of_ascii a :: py s'
  end.

(** [str.isspace] on one code point, from CPython's tables
    ([_Py_ascii_whitespace] and [_PyUnicode_IsWhitespace]). *)
Definition isspace (c : N) : bool :=
  (((9 <=? c) && (c <=? 13)) || ((28 <=? c) && (c <=? 32))
   || (c =? 133) || (c =? 160) || (c =? 5760)
   || ((8192 <=? c) && (c <=? 8202))
   || (c =? 8232) || (c =? 8233) || (c =? 8239) || (c =? 8287)
   || (c =? 12288))%N.

Fixpoint lstrip (s : pystr) : pystr :=
  match s with
  | [] => []
  | c :: s' => if isspace c then lstrip s' else s
  end.

Definition rstrip (s : pystr) : pystr := reverse (lstrip (reverse s)).

(** [text.strip()] *)
Definition strip (s : pystr) : pystr := rstrip (lstrip s).

(** Truth value of a string in a condition: [if text.strip():]. *)
Definition truthy (s : pystr) : bool :=
  match s with [] => false | _ :: _ => true end.

(** ** JSON values

    [json.dumps] and [json.load] are library code; a serialized document
    is represented by the value it denotes.  Python dictionaries keep
    their insertion order, so an object is an association list. *)
Inductive json :=
| JNull
| JBool (b : bool)
| JInt (n : Z)
| JFloat (f : float)
| JStr (s : pystr)
| JList (items : list json)
| JDict (fields : list (pystr * json)).

(** [d.get(key)] on a JSON object; [None] when the key is absent. *)
Fixpoint assoc (key : pystr) (fields : list (pystr * json)) : option json :=
  match fields with
  | [] => None
  | (k, v) :: rest => if decide (k = key) then Some v else assoc key rest
  end.

Definition field (key : string) (j : json) : option json :=
  match j with
  | JDict fields => assoc (py key) fields
  | _ => None
  end.

(** What is at the end of a path, as [open] and [json.load] see it: text
    that is a JSON document; text on which [json.load] raises
    [json.JSONDecodeError]; bytes that are not text in the encoding of
    [open], on which it raises [UnicodeDecodeError]; or something that
    [open(filename, 'r')] refuses, a directory or a file without read
    permission. *)
Inductive FileContent :=
| Document (j : json)
| Malformed
| Undecodable
| Unreadable.

(** ** Paths

    [transcript_dir / name] is built by [pathlib], here in its POSIX
    flavour: the name is split at the slashes, the empty components and
    the components [.] are dropped, [..] is kept; a name that starts with
    a slash is an absolute path, which replaces [transcript_dir]. *)

Definition is_sep (c : N) : bool := (c =? 47)%N.

(** [name.split('/')] *)
Fixpoint split_sep (name : pystr) : list pystr :=
  match name with
  | [] => [[]]
  | c :: rest =>
      if is_sep c then [] :: split_sep rest
      else match split_sep rest with
           | part :: parts => (c :: part) :: parts
           | [] => [[c]]
           end
  end.

Definition path_parts (name : pystr) : list pystr :=
  filter (fun part => part <> [] /\ part <> py ".") (split_sep name).

(** The root of an absolute name: two leading slashes are kept apart from
    one, three or more are one. *)
Definition path_root (name : pystr) : option pystr :=
  match name with
  | c1 :: c2 :: c3 :: _ =>
      if is_sep c1 then
        if is_sep c2 && negb (is_sep c3) then Some (py "//") else Some (py "/")
      else None
  | [c1; c2] =>
      if is_sep c1 then if is_sep c2 then Some (py "//") else Some (py "/")
      else None
  | [c1] => if is_sep c1 then Some (py "/") else None
  | [] => None
  end.

Inductive Path :=
| Below (parts : list pystr)                    (* under [transcript_dir] *)
| Absolute (root : pystr) (parts : list pystr).

(** [transcript_dir / name] *)
Definition transcript_dir_join (name : pystr) : Path :=
  match path_root name with
  | Some root => Absolute root (path_parts name)
  | None => Below (path_parts name)
  end.

(** ** The objects of the LiveKit SDK that the agent reads *)

Inductive TrackKind := KIND_AUDIO | KIND_VIDEO | KIND_UNKNOWN.

Record Track := { track_sid : pystr; kind : TrackKind }.

Record Participant := {
  sid : pystr;
  identity : pystr;
  (* [participant.track_publications.values()]: [publication.track] is
     [None] until the track is subscribed *)
  track_publications : list (option Track)
}.

Inductive SpeechEventType :=
| START_OF_SPEECH | INTERIM_TRANSCRIPT | FINAL_TRANSCRIPT | END_OF_SPEECH
| RECOGNITION_USAGE.

(** One ranked alternative of a speech event.  [confidence] is [None] when
    the object has no such attribute ([hasattr] is false). *)
Record SpeechData := {
  language : pystr;
  text : pystr;
  confidence : option float
}.

Record SpeechEvent := {
  type : SpeechEventType;
  alternatives : list SpeechData
}.

(** A reading of [datetime.now()], by the two renderings the agent uses. *)
Record Instant := {
  isoformat : pystr;   (* [.isoformat()] *)
  ymd : pystr          (* [.strftime('%Y-%m-%d')] *)
}.

(** ** Exceptions *)

Inductive exn :=
| IndexError
| AttributeError
| JSONDecodeError
| UnicodeDecodeError
| OSError            (* [mkdir] or [open] failed *)
| DumpError          (* [json.dump] failed *)
| SendError          (* [publish_data] failed *)
| EngineError        (* the speech engine failed *)
| AudioError         (* the audio source failed *)
| CancelledError.    (* a [BaseException], not an [Exception] *)

(** [except Exception] catches everything but the [BaseException]s. *)
Definition is_Exception (e : exn) : bool :=
  match e with CancelledError => false | _ => true end.

(** ** Observable effects *)

(** The lines the agent prints, by the statement that prints them. *)
Inductive LogLine :=
| LogAlready (track_id : pystr)
| LogStarting (who : pystr) (track_id : pystr)
| LogStopped (track_id : pystr)
| LogError (who : pystr) (e : exn)
| LogInterim (who : pystr) (text : pystr)
| LogFinal (who : pystr) (text : pystr)
| LogSaved (filename : Path)
| LogEndOfSpeech (who : pystr)
| LogStatus (count : nat)
| LogJoined (who : pystr)
| LogNewAudio (who : pystr)
| LogAudioRemoved (who : pystr).

Inductive Effect :=
| Published (data : json)                      (* accepted by [publish_data] *)
| Wrote (file : pystr) (content : json)        (* [json.dump] to a file *)
| Printed (line : LogLine)
| Slept (seconds : nat)                        (* [asyncio.sleep] *)
| PushedFrame (frame : nat)                    (* [stt_stream.push_frame] *)
| EndedInput.                                  (* [stt_stream.end_input] *)

(** ** The shared state *)

(** Everything the coroutines of one agent share: the agent's own
    [processing_tracks], the files of the disk that hold something, each
    under the name the file system knows it by, and the history of
    effects, oldest first.  The three counters number the calls made so
    far to [datetime.now()], to [publish_data] and to [json.dump]. *)
Record World := mkWorld {
  processing_tracks : gset pystr;
  files : gmap pystr FileContent;
  trace : list Effect;
  clock_reads : nat;
  sends : nat;
  dumps : nat
}.

(** What the agent does not control: the name of the room it joined, what
    each successive reading of the clock returns, and whether each
    successive call of [publish_data] is accepted or raises; and of the
    disk, whether the transcripts directory is there or can be made, which
    file a path leads to, if its directories are there and it leads
    anywhere, whether that file can be opened for writing, and whether
    each successive call of [json.dump] writes its document to the end or
    raises on the way, as it does with [UnicodeEncodeError] at a character
    that the encoding of [open] lacks. *)
Record Env := {
  room_name : pystr;
  clock : nat -> Instant;
  sink_accepts : nat -> bool;
  mkdir_ok : bool;
  locate : Path -> option pystr;
  writable : pystr -> bool;
  dump_ok : nat -> bool
}.

Definition set_tracks (s : gset pystr) (w : World) : World :=
  mkWorld s (files w) (trace w) (clock_reads w) (sends w) (dumps w).

Definition set_files (fs : gmap pystr FileContent) (w : World) : World :=
  mkWorld (processing_tracks w) fs (trace w) (clock_reads w) (sends w)
          (dumps w).

Definition emit (e : Effect) (w : World) : World :=
  mkWorld (processing_tracks w) (files w) (trace w ++ [e])
          (clock_reads w) (sends w) (dumps w).

Definition tick_clock (w : World) : World :=
  mkWorld (processing_tracks w) (files w) (trace w)
          (S (clock_reads w)) (sends w) (dumps w).

Definition count_send (w : World) : World :=
  mkWorld (processing_tracks w) (files w) (trace w)
          (clock_reads w) (S (sends w)) (dumps w).

Definition count_dump (w : World) : World :=
  mkWorld (processing_tracks w) (files w) (trace w)
          (clock_reads w) (sends w) (S (dumps w)).

(** ** Coroutines as resumptions *)

Inductive outcome (A : Type) :=
| Returned (a : A)
| Raised (e : exn).
Arguments Returned {A} a.
Arguments Raised {A} e.

(** Where a coroutine stands after running from some state: it returned,
    it raised, or it is suspended at an [await] with the state it left
    behind and the rest of its body, to be resumed in whatever state the
    other tasks have produced by then. *)
Inductive Res (A : Type) :=
| Ret (a : A) (w : World)
| Exn (e : exn) (w : World)
| Yield (w : World) (k : World -> Res A).
Arguments Ret {A} a w.
Arguments Exn {A} e w.
Arguments Yield {A} w k.

Definition Co (A : Type) : Type := World -> Res A.

Definition ret {A} (a : A) : Co A := fun w => Ret a w.
Definition raise {A} (e : exn) : Co A := fun w => Exn e w.

Fixpoint bind_res {A B} (r : Res A) (f : A -> Co B) : Res B :=
  match r with
  | Ret a w => f a w
  | Exn e w => Exn e w
  | Yield w k => Yield w (fun w' => bind_res (k w') f)
  end.

Definition bind {A B} (c : Co A) (f : A -> Co B) : Co B :=
  fun w => bind_res (c w) f.

(** stdpp's monad notations: [x ← c; k] and [c ;; k]. *)
#[global] Instance co_ret : MRet Co := @ret.
#[global] Instance co_bind : MBind Co := fun A B f c => bind c f.

(** A suspension point that takes no other effect. *)
Definition suspend : Co unit := fun w => Yield w (fun w' => Ret tt w').

Definition gets {A} (f : World -> A) : Co A := fun w => Ret (f w) w.
Definition modify (f : World -> World) : Co unit := fun w => Ret tt (f w).

(** [try: body  except <class> as e: handler(e)], with the exceptions the
    clause catches given as a predicate. *)
Fixpoint try_except_res {A} (catches : exn -> bool) (r : Res A)
    (handler : exn -> Co A) : Res A :=
  match r with
  | Ret a w => Ret a w
  | Exn e w => if catches e then handler e w else Exn e w
  | Yield w k => Yield w (fun w' => try_except_res catches (k w') handler)
  end.

Definition try_except {A} (catches : exn -> bool) (body : Co A)
    (handler : exn -> Co A) : Co A :=
  fun w => try_except_res catches (body w) handler.

(** [try: body  finally: cleanup]: the cleanup runs however the body
    ends, and an exception of the body is raised again after it. *)
Fixpoint try_finally_res {A} (r : Res A) (cleanup : Co unit) : Res A :=
  match r with
  | Ret a w => bind_res (cleanup w) (fun _ => ret a)
  | Exn e w => bind_res (cleanup w) (fun _ => raise e)
  | Yield w k => Yield w (fun w' => try_finally_res (k w') cleanup)
  end.

Definition try_finally {A} (body : Co A) (cleanup : Co unit) : Co A :=
  fun w => try_finally_res (body w) cleanup.

(** [print(...)] *)
Definition print (l : LogLine) : Co unit := modify (emit (Printed l)).

(** [l[i]] *)
Definition getitem {A} (l : list A) (i : nat) : Co A :=
  match l !! i with
  | Some x => ret x
  | None => raise IndexError
  end.

(** ** The agent *)

Section Agent.

Variable env : Env.

(** [datetime.now()] *)
Definition datetime_now : Co Instant :=
  fun w => Ret (clock env (clock_reads w)) (tick_clock w).

(** [await self.room.local_participant.publish_data(data, reliable=True)]:
    the call suspends the caller; the room either takes the packet or the
    call raises. *)
Definition publish_data (data : json) : Co unit :=
  fun w =>
    if sink_accepts env (sends w)
    then Yield (emit (Published data) (count_send w)) (fun w' => Ret tt w')
    else Yield (count_send w) (fun w' => Exn SendError w').

(** A Python value that is a float or [None], as [json.dumps] renders it. *)
Definition json_of_confidence (confidence : option float) : json :=
  match confidence with
  | Some c => JFloat c
  | None => JNull
  end.

Definition transcription_message (text : pystr) (is_final : bool)
    (participant : pystr) (timestamp : pystr) (confidence : option float)
    : json :=
  JDict [ (py "type", JStr (py "transcription"));
          (py "text", JStr text);
          (py "isFinal", JBool is_final);
          (py "participant", JStr participant);
          (py "timestamp", JStr timestamp);
          (py "confidence", json_of_confidence confidence) ].

(** [TranscriptionAgent.send_transcription] *)
Definition send_transcription (text : pystr) (is_final : bool)
    (participant : pystr) (confidence : option float) : Co unit :=
  if negb (truthy (strip text)) then ret tt
  else
    now ← datetime_now;
    let message :=
      transcription_message text is_final participant (isoformat now)
                            confidence in
    publish_data message ;;
    if is_final then print (LogFinal participant text)
    else print (LogInterim participant text).

(** The name given to the file of a room and a day:
    [f"{self.room.name}_{datetime.now().strftime('%Y-%m-%d')}.json"]. *)
Definition transcript_filename (room : pystr) (day : pystr) : pystr :=
  room ++ py "_" ++ day ++ py ".json".

(** Line 210: the name, joined to the transcripts directory. *)
Definition transcript_path (day : pystr) : Path :=
  transcript_dir_join (transcript_filename (room_name env) day).

(** [transcript_dir.mkdir(exist_ok=True, parents=True)] *)
Definition mkdir : Co unit :=
  if mkdir_ok env then ret tt else raise OSError.

(** What is at the end of a path, if anything. *)
Definition content_at (filename : Path) (w : World) : option FileContent :=
  match locate env filename with
  | Some file => files w !! file
  | None => None
  end.

(** [filename.exists()] *)
Definition path_exists (filename : Path) : Co bool :=
  gets (fun w => match content_at filename w with
                 | Some _ => true
                 | None => false
                 end).

Definition transcript_entry (timestamp participant text room : pystr) : json :=
  JDict [ (py "timestamp", JStr timestamp);
          (py "participant", JStr participant);
          (py "text", JStr text);
          (py "room", JStr room) ].

(** [with open(filename, 'r') as f: json.load(f)] *)
Definition json_load (filename : Path) : Co json :=
  content ← gets (content_at filename);
  match content with
  | Some (Document j) => ret j
  | Some Malformed => raise JSONDecodeError
  | Some Undecodable => raise UnicodeDecodeError
  | Some Unreadable | None => raise OSError
  end.

(** [transcripts.append(entry)]: only a list has the method. *)
Definition append (transcripts : json) (entry : json) : Co json :=
  match transcripts with
  | JList items => ret (JList (items ++ [entry]))
  | _ => raise AttributeError
  end.

(** [with open(filename, 'w') as f: json.dump(transcripts, f, indent=2,
    ensure_ascii=False)].  [open] raises when the path leads nowhere or
    the file cannot be written.  Once it has opened the file, the file is
    empty; [json.dump] then writes the document piece by piece, and when
    it raises on the way, the beginning of an array is what is left in
    the file. *)
Definition json_dump (filename : Path) (transcripts : json) : Co unit :=
  match locate env filename with
  | Some file =>
      if writable env file then
        done ← gets (fun w => dump_ok env (dumps w));
        modify count_dump ;;
        if done : bool then
          modify (fun w =>
            emit (Wrote file transcripts)
                 (set_files (<[file := Document transcripts]> (files w)) w))
        else
          modify (fun w => set_files (<[file := Malformed]> (files w)) w) ;;
          raise DumpError
      else raise OSError
  | None => raise OSError
  end.

Definition is_JSONDecodeError (e : exn) : bool :=
  match e with JSONDecodeError => true | _ => false end.

(** [TranscriptionAgent.save_transcript].  The function is a plain [def]:
    it has no suspension point. *)
Definition save_transcript (text : pystr) (participant : pystr) : Co unit :=
  if negb (truthy (strip text)) then ret tt
  else
    mkdir ;;
    day ← datetime_now;
    let filename := transcript_path (ymd day) in
    now ← datetime_now;
    let entry :=
      transcript_entry (isoformat now) participant text (room_name env) in
    found ← path_exists filename;
    transcripts ←
      (if found : bool then
         try_except is_JSONDecodeError (json_load filename)
                    (fun _ => ret (JList []))
       else ret (JList []));
    transcripts ← append transcripts entry;
    json_dump filename transcripts ;;
    print (LogSaved filename).

(** [if event.alternatives and len(event.alternatives) > 0] *)
Definition has_alternatives (event : SpeechEvent) : bool :=
  match alternatives event with [] => false | _ :: _ => true end
  && bool_decide (0 < length (alternatives event)).

(** [event.alternatives[0].confidence
      if hasattr(event.alternatives[0], 'confidence') else None] *)
Definition first_confidence (event : SpeechEvent) : Co (option float) :=
  probe ← getitem (alternatives event) 0;
  match confidence probe with
  | Some _ =>
      first ← getitem (alternatives event) 0;
      ret (confidence first)
  | None => ret None
  end.

(** The body of the [async for event in stt_stream] loop of
    [process_stt_events], for the audio of [participant]. *)
Definition handle_event (participant : Participant) (event : SpeechEvent)
    : Co unit :=
  match type event with
  | INTERIM_TRANSCRIPT =>
      if has_alternatives event then
        first ← getitem (alternatives event) 0;
        let text := text first in
        if truthy (strip text) then
          confidence ← first_confidence event;
          send_transcription text false (identity participant) confidence
        else ret tt
      else ret tt
  | FINAL_TRANSCRIPT =>
      if has_alternatives event then
        first ← getitem (alternatives event) 0;
        let text := text first in
        if truthy (strip text) then
          confidence ← first_confidence event;
          send_transcription text true (identity participant) confidence ;;
          save_transcript text (identity participant)
        else ret tt
      else ret tt
  | END_OF_SPEECH => print (LogEndOfSpeech (identity participant))
  | _ => ret tt
  end.

(** [process_stt_events]: the loop awaits each next item of the stream,
    which is an event, the end of the stream, or an exception. *)
Fixpoint process_stt_events (participant : Participant)
    (events : list SpeechEvent) (stream_end : option exn) : Co unit :=
  suspend ;;
  match events with
  | [] =>
      match stream_end with
      | None => ret tt
      | Some e => raise e
      end
  | event :: rest =>
      handle_event participant event ;;
      process_stt_events participant rest stream_end
  end.

(** [push_audio_frames] *)
Fixpoint push_audio_frames (frames : list nat) (audio_end : option exn)
    : Co unit :=
  suspend ;;
  match frames with
  | [] =>
      match audio_end with
      | None => modify (emit EndedInput)
      | Some e => raise e
      end
  | frame :: rest =>
      modify (emit (PushedFrame frame)) ;;
      push_audio_frames rest audio_end
  end.

(** *** [asyncio.gather] of two coroutines

    Each coroutine becomes a task of its own; the caller is suspended
    until both have finished, or until the first exception, which is
    raised in the caller at once while the other task is left running on
    its own (that detached remainder is outside the call and not part of
    its result).  Which task the event loop resumes next depends on when
    the data they wait for arrives: [picks] lists those choices, [true]
    for the first task. *)

Inductive Child :=
| Running (k : World -> Res unit)
| Done.

Definition is_done (c : Child) : bool :=
  match c with Done => true | Running _ => false end.

(** Run a task to its end on its own, then go on with [next]. *)
Fixpoint run_out (r : Res unit) (next : World -> Res unit) : Res unit :=
  match r with
  | Ret _ w => Yield w next
  | Exn e w => Yield w (fun w' => Exn e w')
  | Yield w k => Yield w (fun w' => run_out (k w') next)
  end.

Definition resume_child (c : Child) (next : World -> Res unit) : Co unit :=
  match c with
  | Running k => fun w => run_out (k w) next
  | Done => next
  end.

Fixpoint gather_loop (picks : list bool) (a b : Child) (w : World)
    : Res unit :=
  if is_done a && is_done b then Ret tt w
  else
    match picks with
    | [] =>
        (* no choice left to make: the first task, then the second *)
        resume_child a (resume_child b (fun w' => Ret tt w')) w
    | pick :: picks' =>
        let first := if is_done b then true
                     else if is_done a then false else pick in
        match (if first then a else b) with
        | Done => Ret tt w
        | Running k =>
            match k w with
            | Ret _ w1 =>
                Yield w1 (fun w2 =>
                  if first then gather_loop picks' Done b w2
                  else gather_loop picks' a Done w2)
            | Exn e w1 => Yield w1 (fun w2 => Exn e w2)
            | Yield w1 k' =>
                Yield w1 (fun w2 =>
                  if first then gather_loop picks' (Running k') b w2
                  else gather_loop picks' a (Running k') w2)
            end
        end
    end.

Definition gather (picks : list bool) (a b : Co unit) : Co unit :=
  fun w => Yield w (fun w' => gather_loop picks (Running a) (Running b) w').

(** *** A track session *)

(** What the outside world does during one session: whether
    [self.stt.stream()] raises, the events the speech engine yields and
    how its stream ends, the frames of the audio source and how it ends,
    and the order in which the two flows are resumed. *)
Record Script := {
  stt_open_error : option exn;
  stt_events : list SpeechEvent;
  stt_end : option exn;
  audio_frames : list nat;
  audio_end : option exn;
  picks : list bool
}.

(** [f"{participant.sid}_{track.sid}"] *)
Definition track_id_of (participant : Participant) (track : Track) : pystr :=
  sid participant ++ py "_" ++ track_sid track.

(** [self.processing_tracks.add] and [.discard] *)
Definition add_track (track_id : pystr) : Co unit :=
  modify (fun w => set_tracks ({[track_id]} ∪ processing_tracks w) w).

Definition discard_track (track_id : pystr) : Co unit :=
  modify (fun w => set_tracks (processing_tracks w ∖ {[track_id]}) w).

(** The [try] block of [process_audio_track] (lines 115 to 167). *)
Definition run_flows (script : Script) (participant : Participant) : Co unit :=
  match stt_open_error script with
  | Some e => raise e
  | None =>
      gather (picks script)
        (process_stt_events participant (stt_events script) (stt_end script))
        (push_audio_frames (audio_frames script) (audio_end script))
  end.

(** The [try] statement of [process_audio_track] (lines 114 to 173): the
    session proper, entered once the id has been added. *)
Definition track_session (script : Script) (track_id : pystr)
    (participant : Participant) : Co unit :=
  try_finally
    (try_except is_Exception
       (run_flows script participant)
       (fun e => print (LogError (identity participant) e)))
    (discard_track track_id ;; print (LogStopped track_id)).

(** [TranscriptionAgent.process_audio_track] *)
Definition process_audio_track (script : Script) (track : Track)
    (participant : Participant) : Co unit :=
  let track_id := track_id_of participant track in
  held ← gets (fun w => bool_decide (track_id ∈ processing_tracks w));
  if held : bool then print (LogAlready track_id)
  else
    add_track track_id ;;
    print (LogStarting (identity participant) track_id) ;;
    track_session script track_id participant.

(** [TranscriptionAgent.process_participant_tracks]: the audio tracks of a
    participant, one session after the other. *)
Fixpoint process_tracks (script_of : Track -> Script)
    (publications : list (option Track)) (participant : Participant)
    : Co unit :=
  match publications with
  | [] => ret tt
  | publication :: rest =>
      match publication with
      | Some track =>
          match kind track with
          | KIND_AUDIO =>
              process_audio_track (script_of track) track participant
          | _ => ret tt
          end
      | None => ret tt
      end ;;
      process_tracks script_of rest participant
  end.

Definition process_participant_tracks (script_of : Track -> Script)
    (participant : Participant) : Co unit :=
  process_tracks script_of (track_publications participant) participant.

(** The scan of [entrypoint] (lines 40 and 41): the participants already
    in the room, one after the other. *)
Fixpoint process_participants (script_of : Track -> Script)
    (participants : list Participant) : Co unit :=
  match participants with
  | [] => ret tt
  | participant :: rest =>
      process_participant_tracks script_of participant ;;
      process_participants script_of rest
  end.

(** *** The heartbeat *)

Definition status_message (count : nat) (timestamp : pystr) : json :=
  JDict [ (py "type", JStr (py "agent_status"));
          (py "status", JStr (py "active"));
          (py "processing_tracks", JInt (Z.of_nat count));
          (py "timestamp", JStr timestamp) ].

(** [await asyncio.sleep(seconds)] *)
Definition sleep (seconds : nat) : Co unit :=
  fun w => Yield (emit (Slept seconds) w) (fun w' => Ret tt w').

(** One turn of the [while True] loop of [send_status_updates]. *)
Definition status_update : Co unit :=
  sleep 30 ;;
  count ← gets (fun w => size (processing_tracks w));
  now ← datetime_now;
  publish_data (status_message count (isoformat now)) ;;
  count ← gets (fun w => size (processing_tracks w));
  print (LogStatus count).

(** [send_status_updates], for the [turns] turns of the loop that the
    process lives long enough to begin. *)
Fixpoint send_status_updates (turns : nat) : Co unit :=
  match turns with
  | 0 => ret tt
  | S turns' => status_update ;; send_status_updates turns'
  end.

End Agent.

(** ** Running coroutines *)

(** A coroutine on its own: nothing else runs while it is suspended. *)
Fixpoint run_alone {A} (r : Res A) : outcome A * World :=
  match r with
  | Ret a w => (Returned a, w)
  | Exn e w => (Raised e, w)
  | Yield w k => run_alone (k w)
  end.

(** A coroutine among other tasks: at its [n]-th suspension the others
    turn the state [w] it left into [others n w] before it is resumed. *)
Fixpoint run_with {A} (others : nat -> World -> World) (n : nat) (r : Res A)
    : outcome A * World :=
  match r with
  | Ret a w => (Returned a, w)
  | Exn e w => (Raised e, w)
  | Yield w k => run_with others (S n) (k (others n w))
  end.

(** ** The event loop

    The tasks of the agent, each suspended at an [await] or finished, and
    the state they share.  The loop is driven from outside: a task's wait
    is over and it is resumed up to its next suspension, or the room
    delivers one of the notifications the agent registered a handler for
    in [entrypoint]. *)

Record Loop := mkLoop {
  world : World;
  tasks : list (option (World -> Res unit))   (* [None]: finished *)
}.

Inductive Stimulus :=
| Resume (i : nat)
| TrackSubscribed (script : Script) (track : Track) (participant : Participant)
| TrackUnsubscribed (track : Track) (participant : Participant)
| ParticipantConnected (script_of : Track -> Script) (participant : Participant).

(** [asyncio.create_task(coroutine)] *)
Definition create_task (c : Co unit) (l : Loop) : Loop :=
  mkLoop (world l) (tasks l ++ [Some c]).

Definition resume (i : nat) (l : Loop) : Loop :=
  match tasks l !! i with
  | Some (Some k) =>
      match k (world l) with
      | Ret _ w' | Exn _ w' => mkLoop w' (<[i := None]> (tasks l))
      | Yield w' k' => mkLoop w' (<[i := Some k']> (tasks l))
      end
  | _ => l
  end.

Section Handlers.

Variable env : Env.

(** [on_track_subscribed] *)
Definition on_track_subscribed (script : Script) (track : Track)
    (participant : Participant) (l : Loop) : Loop :=
  match kind track with
  | KIND_AUDIO =>
      create_task (process_audio_track env script track participant)
        (mkLoop (emit (Printed (LogNewAudio (identity participant))) (world l))
                (tasks l))
  | _ => l
  end.

(** [on_track_unsubscribed] *)
Definition on_track_unsubscribed (track : Track) (participant : Participant)
    (l : Loop) : Loop :=
  match kind track with
  | KIND_AUDIO =>
      let w := emit (Printed (LogAudioRemoved (identity participant)))
                    (world l) in
      let track_id := track_id_of participant track in
      mkLoop (set_tracks (processing_tracks w ∖ {[track_id]}) w) (tasks l)
  | _ => l
  end.

(** [on_participant_connected] *)
Definition on_participant_connected (script_of : Track -> Script)
    (participant : Participant) (l : Loop) : Loop :=
  create_task (process_participant_tracks env script_of participant)
    (mkLoop (emit (Printed (LogJoined (identity participant))) (world l))
            (tasks l)).

Definition deliver (s : Stimulus) (l : Loop) : Loop :=
  match s with
  | Resume i => resume i l
  | TrackSubscribed script track participant =>
      on_track_subscribed script track participant l
  | TrackUnsubscribed track participant =>
      on_track_unsubscribed track participant l
  | ParticipantConnected script_of participant =>
      on_participant_connected script_of participant l
  end.

Definition run_loop (stimuli : list Stimulus) (l : Loop) : Loop :=
  foldl (fun l s => deliver s l) l stimuli.

End Handlers.

(** ** Reading the history *)

(** The packets the room accepted, oldest first. *)
Definition published (t : list Effect) : list json :=
  omap (fun e => match e with Published d => Some d | _ => None end) t.

(** The writes to transcript files, oldest first. *)
Definition written (t : list Effect) : list (pystr * json) :=
  omap (fun e => match e with Wrote f c => Some (f, c) | _ => None end) t.

Definition is_starting (track_id : pystr) (e : Effect) : bool :=
  match e with
  | Printed (LogStarting _ id) => bool_decide (id = track_id)
  | _ => false
  end.

Definition is_stopped (track_id : pystr) (e : Effect) : bool :=
  match e with
  | Printed (LogStopped id) => bool_decide (id = track_id)
  | _ => false
  end.

Definition started (track_id : pystr) (t : list Effect) : nat :=
  length (filter (fun e => is_starting track_id e = true) t).

Definition stopped (track_id : pystr) (t : list Effect) : nat :=
  length (filter (fun e => is_stopped track_id e = true) t).

(** The sessions of a track id that have started and not yet stopped, by
    the lines [process_audio_track] prints when it enters and leaves its
    [try] statement. *)
Definition active_sessions (track_id : pystr) (w : World) : nat :=
  started track_id (trace w) - stopped track_id (trace w).

(** The records a transcript file stores; a file that is missing or
    holds text that is not JSON stores none, and a document that is not
    an array, bytes that are not text and what cannot be read have no
    records to speak of. *)
Definition stored_records (content : option FileContent)
    : option (list json) :=
  match content with
  | None => Some []
  | Some Malformed => Some []
  | Some (Document (JList items)) => Some items
  | Some (Document _) => None
  | Some Undecodable => None
  | Some Unreadable => None
  end.

(** ** Sample rooms, participants and scripts *)

Definition no_files : gmap pystr FileContent := ∅.

Definition fresh : World := mkWorld ∅ no_files [] 0 0 0.

Definition noon : Instant :=
  {| isoformat := py "2025-03-01T12:00:00"; ymd := py "2025-03-01" |}.

(** A transcripts directory without subdirectories: a path of one
    component leads to the file of that name, and no other path leads
    anywhere. *)
Definition flat_directory (path : Path) : option pystr :=
  match path with
  | Below [name] => if decide (name = py "..") then None else Some name
  | _ => None
  end.

(** A room in which all goes well: the packets are accepted, the
    directory is flat and can be written, and every dump succeeds. *)
Definition calm : Env :=
  {| room_name := py "standup";
     clock := fun _ => noon;
     sink_accepts := fun _ => true;
     mkdir_ok := true;
     locate := flat_directory;
     writable := fun _ => true;
     dump_ok := fun _ => true |}.

Definition alice : Participant :=
  {| sid := py "PA_1"; identity := py "alice"; track_publications := [] |}.

Definition mic : Track := {| track_sid := py "TR_1"; kind := KIND_AUDIO |}.

Definition said (ty : SpeechEventType) (words : string) : SpeechEvent :=
  {| type := ty;
     alternatives :=
       [ {| language := py "en-US"; text := py words;
            confidence := Some 0.875%float |} ] |}.

Definition hello_script : Script :=
  {| stt_open_error := None;
     stt_events := [ said INTERIM_TRANSCRIPT "hel";
                     said INTERIM_TRANSCRIPT "hello";
                     said FINAL_TRANSCRIPT "hello world";
                     {| type := END_OF_SPEECH; alternatives := [] |} ];
     stt_end := None;
     audio_frames := [1; 2; 3];
     audio_end := None;
     picks := [false; true; true; false; true] |}.

Definition hello_run : outcome unit * World :=
  run_alone (process_audio_track calm hello_script mic alice fresh).

Definition hush : SpeechEvent := said FINAL_TRANSCRIPT "  ".

Definition silent (ty : SpeechEventType) : SpeechEvent :=
  {| type := ty; alternatives := [] |}.

(** An alternative on which the engine set no confidence. *)
Definition unscored : SpeechData :=
  {| language := py "en-US"; text := py "good morning"; confidence := None |}.

Definition scored : SpeechData :=
  {| language := py "fr-FR"; text := py "good morning";
     confidence := Some 0.5%float |}.

(** The id of [mic] is held before the call. *)
Definition busy : World := set_tracks {[ track_id_of alice mic ]} fresh.

(** A room that refuses the first packet and takes every later one. *)
Definition stormy : Env :=
  {| room_name := py "standup";
     clock := fun _ => noon;
     sink_accepts := fun n => negb (n =? 0);
     mkdir_ok := true;
     locate := flat_directory;
     writable := fun _ => true;
     dump_ok := fun _ => true |}.

(** The same as [calm], for a room whose name has a slash in it. *)
Definition nested : Env :=
  {| room_name := py "team/standup";
     clock := fun _ => noon;
     sink_accepts := fun _ => true;
     mkdir_ok := true;
     locate := flat_directory;
     writable := fun _ => true;
     dump_ok := fun _ => true |}.

(** The tasks of an agent that has just connected: the scan of the
    participants already in the room, and the heartbeat.  In [entrypoint]
    the handlers are registered and the heartbeat is started only after
    the scan; here they are there from the start, which allows every
    schedule of the agent, and more. *)
Definition agent_loop (env : Env) (script_of : Track -> Script)
    (participants : list Participant) (turns : nat) (w : World) : Loop :=
  mkLoop w [ Some (process_participants env script_of participants);
             Some (send_status_updates env turns) ].

(** A track that is subscribed, unsubscribed while its session waits for
    the speech engine, and subscribed again. *)
Definition resubscribed : list Stimulus :=
  [ TrackSubscribed hello_script mic alice; Resume 2;
    TrackUnsubscribed mic alice;
    TrackSubscribed hello_script mic alice; Resume 3 ].

Definition bob : Participant :=
  {| sid := py "PA_2"; identity := py "bob"; track_publications := [] |}.

Definition one_final (words : string) : Script :=
  {| stt_open_error := None;
     stt_events := [ said INTERIM_TRANSCRIPT "so";
                     said FINAL_TRANSCRIPT words ];
     stt_end := None;
     audio_frames := [];
     audio_end := None;
     picks := [] |}.

(** Two sessions that speak at the same time, and a schedule that lets
    them take turns until both are over. *)
Definition duet : list (Participant * Script) :=
  [ (alice, one_final "hello world"); (bob, one_final "good morning") ].

Definition turns_taken : list nat := [0; 1; 1; 0; 0; 1; 0; 1; 1; 0; 0; 1].

(** A speech engine that fails after its first event. *)
Definition broken_script : Script :=
  {| stt_open_error := None;
     stt_events := [ said INTERIM_TRANSCRIPT "hel" ];
     stt_end := Some EngineError;
     audio_frames := [1; 2];
     audio_end := None;
     picks := [true; true; true; false] |}.

Definition bob_mic : Track := {| track_sid := py "TR_2"; kind := KIND_AUDIO |}.

(** Two participants publish a track each, and both sessions start. *)
Definition two_tracks : list Stimulus :=
  [ TrackSubscribed hello_script mic alice;
    TrackSubscribed hello_script bob_mic bob;
    Resume 2; Resume 3 ].

(** ** Notions used in the statements *)

(** Other tasks that change [processing_tracks] while a coroutine is
    suspended: at its [n]-th suspension they leave the set [regs n]. *)
Definition registry_changes (regs : nat -> gset pystr)
    : nat -> World -> World :=
  fun n w => set_tracks (regs n) w.

(** The effects of the turn of the heartbeat loop that is [k] turns after
    the one whose sleep is the suspension number [n] and whose clock
    reading is number [reads]. *)
Definition beat (env : Env) (regs : nat -> gset pystr) (n reads : nat)
    (k : nat) : list Effect :=
  [ Slept 30;
    Published (status_message (size (regs (n + 2 * k)))
                 (isoformat (clock env (reads + k))));
    Printed (LogStatus (size (regs (S (n + 2 * k))))) ].

(** A text that is empty or made of whitespace only. *)
Definition blank (s : pystr) : Prop := Forall (fun c => isspace c = true) s.

(** An exception that some run of the coroutine raises, whatever the
    other tasks do while it is suspended. *)
Fixpoint raises_in {A} (e : exn) (r : Res A) : Prop :=
  match r with
  | Ret _ _ => False
  | Exn e' _ => e' = e
  | Yield _ k => exists w, raises_in e (k w)
  end.

(** The store takes what is written to [filename], in the file [file]:
    the transcripts directory is there or can be made, the path leads to
    [file], and [file] can be opened for writing. *)
Definition store_ready (env : Env) (filename : Path) (file : pystr) : Prop :=
  mkdir_ok env = true
  /\ locate env filename = Some file
  /\ writable env file = true.

(** The state [save_transcript] leaves when it writes [records] to the
    file [file], which it reached by the path [filename]. *)
Definition saved (file : pystr) (filename : Path) (records : list json)
    (w : World) : World :=
  emit (Printed (LogSaved filename))
    (emit (Wrote file (JList records))
       (set_files (<[file := Document (JList records)]> (files w))
          (count_dump (tick_clock (tick_clock w))))).

(** ** The registry protocol *)

(** Effects other than the two lines that open and close a session. *)
Definition neutral (e : Effect) : bool :=
  match e with
  | Printed (LogStarting _ _) | Printed (LogStopped _) => false
  | _ => true
  end.

(** From [w0] to [w] the set of held ids is the same and no session was
    opened or closed. *)
Definition quiet (w0 w : World) : Prop :=
  processing_tracks w = processing_tracks w0
  /\ exists more,
       trace w = trace w0 ++ more /\ Forall (fun e => neutral e = true) more.

(** Every stretch of the coroutine between two suspensions is quiet,
    wherever it is resumed. *)
Fixpoint keeps_quiet {A} (r : Res A) (w0 : World) : Prop :=
  match r with
  | Ret _ w | Exn _ w => quiet w0 w
  | Yield w k => quiet w0 w /\ forall w1, keeps_quiet (k w1) w1
  end.

(** A task of a [gather] is quiet. *)
Definition child_quiet (c : Child) : Prop :=
  match c with
  | Running k => forall w, keeps_quiet (k w) w
  | Done => True
  end.

(** The number of tasks that hold [track_id], in a list that gives for
    each task the id whose session it is in, if any. *)
Definition holders (track_id : pystr) (hs : list (option pystr)) : nat :=
  length (filter (fun h => h = Some track_id) hs).

(** The state agrees with what the tasks hold: the sessions of an id that
    were opened and not closed are those of the tasks that hold it, there
    is at most one, and the id is in [processing_tracks] exactly then. *)
Definition consistent (hs : list (option pystr)) (w : World) : Prop :=
  forall track_id,
    started track_id (trace w)
    = stopped track_id (trace w) + holders track_id hs
    /\ holders track_id hs <= 1
    /\ (track_id ∈ processing_tracks w <-> holders track_id hs = 1).

(** A stretch of one task from [w0], where it holds [h], to [w], where it
    holds [h'], keeps the state consistent. *)
Definition moves (h : option pystr) (w0 : World) (h' : option pystr)
    (w : World) : Prop :=
  forall hs i,
    hs !! i = Some h -> consistent hs w0 -> consistent (<[i := h']> hs) w.

(** The coroutine, resumed wherever, moves from stretch to stretch and
    holds [hr] when it returns and [he] when it raises. *)
Fixpoint obeys {A} (hr he : option pystr) (r : Res A) (h0 : option pystr)
    (w0 : World) : Prop :=
  match r with
  | Ret _ w => moves h0 w0 hr w
  | Exn _ w => moves h0 w0 he w
  | Yield w k =>
      exists h, moves h0 w0 h w /\ forall w1, obeys hr he (k w1) h w1
  end.

(** A task of the loop with the id it holds. *)
Definition task_ok (h : option pystr) (t : option (World -> Res unit))
    : Prop :=
  match t with
  | None => h = None
  | Some k => forall w, obeys None None (k w) h w
  end.

Definition loop_ok (l : Loop) : Prop :=
  exists hs, consistent hs (world l) /\ Forall2 task_ok hs (tasks l).

(** No track is unsubscribed while a session of its id is open. *)
Fixpoint unsubscribed_when_idle (env : Env) (stimuli : list Stimulus)
    (l : Loop) : Prop :=
  match stimuli with
  | [] => True
  | s :: rest =>
      match s with
      | TrackUnsubscribed track participant =>
          active_sessions (track_id_of participant track) (world l) = 0
      | _ => True
      end
      /\ unsubscribed_when_idle env rest (deliver env s l)
  end.

(** ** Appending to one transcript file *)

(** The text that [handle_event] saves for an event, if any. *)
Definition saved_text (event : SpeechEvent) : option pystr :=
  match type event, alternatives event with
  | FINAL_TRANSCRIPT, first :: _ =>
      if truthy (strip (text first)) then Some (text first) else None
  | _, _ => None
  end.

Definition saved_texts (events : list SpeechEvent) : list pystr :=
  omap saved_text events.

(** The event-draining flow of a session, which is where it appends. *)
Definition drain_flow (env : Env) (session : Participant * Script)
    : Co unit :=
  process_stt_events env session.1 (stt_events session.2)
    (stt_end session.2).

(** A computation without suspension point: no other task runs between
    its first and its last step. *)
Definition atomic {A} (r : Res A) : Prop :=
  match r with
  | Yield _ _ => False
  | _ => True
  end.

(** The [text] fields of records, as JSON strings. *)
Definition texts_of (records : list json) : list (option json) :=
  field "text" <$> records.

Definition as_texts (words : list pystr) : list (option json) :=
  (fun t => Some (JStr t)) <$> words.

(** From [w0] to [w] the file gained records with the texts [words], in
    this order, and nothing else happened to it; said of a file that
    stores records in [w0]. *)
Definition grows (file : pystr) (w0 w : World) (words : list pystr)
    : Prop :=
  forall records,
    stored_records (files w0 !! file) = Some records ->
    exists new,
      stored_records (files w !! file) = Some (records ++ new)
      /\ texts_of new = as_texts words.

(** The coroutine, resumed wherever, appends records with the texts
    [owed], in this order, before it ends.  When [strict] it does not
    raise as long as the file stores records. *)
Fixpoint appends {A} (file : pystr) (strict : bool) (owed : list pystr)
    (r : Res A) (w0 : World) : Prop :=
  match r with
  | Ret _ w => grows file w0 w owed
  | Exn _ w =>
      if strict
      then forall records,
             stored_records (files w0 !! file) = Some records -> False
      else grows file w0 w owed
  | Yield w k =>
      exists now later,
        owed = now ++ later
        /\ grows file w0 w now
        /\ forall w1, appends file strict later (k w1) w1
  end.

Definition task_owes (file : pystr) (owed : list pystr)
    (t : option (World -> Res unit)) : Prop :=
  match t with
  | None => owed = []
  | Some k => forall w, appends file false owed (k w) w
  end.

(** The pool of drain flows at some point of a schedule: what each task
    still owes, and what the file has gained so far. *)
Definition pool_ok (file : pystr) (all : list pystr)
    (prior : list json) (l : Loop) : Prop :=
  exists pending new words,
    Forall2 (task_owes file) pending (tasks l)
    /\ stored_records (files (world l) !! file) = Some (prior ++ new)
    /\ texts_of new = as_texts words
    /\ words ++ concat pending ≡ₚ all.

(** ** Notions used in the further properties *)

(** What [handle_event] publishes for an event, if anything: the text and
    whether it is final. *)
Definition sent_message (event : SpeechEvent) : option (pystr * bool) :=
  match type event, alternatives event with
  | INTERIM_TRANSCRIPT, first :: _ =>
      if truthy (strip (text first)) then Some (text first, false) else None
  | FINAL_TRANSCRIPT, first :: _ =>
      if truthy (strip (text first)) then Some (text first, true) else None
  | _, _ => None
  end.

(** The text and the finality of a published message. *)
Definition headline (message : json) : option json * option json :=
  (field "text" message, field "isFinal" message).

Definition as_headline (sent : pystr * bool) : option json * option json :=
  (Some (JStr sent.1), Some (JBool sent.2)).

(** From [w0] to [w] the set of held ids is back to what it was and every
    session that was opened has been closed. *)
Definition settled (w0 w : World) : Prop :=
  processing_tracks w = processing_tracks w0
  /\ forall track_id,
       started track_id (trace w) + stopped track_id (trace w0)
       = started track_id (trace w0) + stopped track_id (trace w).

(** A publication that carries no audio track. *)
Definition no_audio (publication : option Track) : Prop :=
  match publication with
  | Some track => kind track <> KIND_AUDIO
  | None => True
  end.

Definition is_ended_input (e : Effect) : bool :=
  match e with EndedInput => true | _ => false end.

(** How often [end_input] was called. *)
Definition ended_inputs (w : World) : nat :=
  length (filter (fun e => is_ended_input e = true) (trace w)).

(** A participant whose publications are a camera and a track that is not
    subscribed yet. *)
Definition viewer : Participant :=
  {| sid := py "PA_3"; identity := py "carol";
     track_publications :=
       [ Some {| track_sid := py "TR_9"; kind := KIND_VIDEO |}; None ] |}.

(** A day's file that holds a JSON object instead of an array. *)
Definition clobbered : World :=
  set_files {[ py "standup_2025-03-01.json" := Document (JDict []) ]} fresh.

(** A day's file that holds one record, and one whose bytes are not
    text. *)
Definition one_record : World :=
  set_files
    {[ py "standup_2025-03-01.json" :=
         Document (JList [ transcript_entry (py "2025-03-01T11:00:00")
                             (py "bob") (py "good morning") (py "standup") ]) ]}
    fresh.

Definition garbled : World :=
  set_files {[ py "standup_2025-03-01.json" := Undecodable ]} fresh.

(** A room in which the first dump fails and every later one succeeds,
    as when the first text holds a character that the encoding lacks. *)
Definition tongue_tied : Env :=
  {| room_name := py "standup";
     clock := fun _ => noon;
     sink_accepts := fun _ => true;
     mkdir_ok := true;
     locate := flat_directory;
     writable := fun _ => true;
     dump_ok := fun n => negb (n =? 0) |}.

(** The two flows of a session as tasks of [gather]: the first owes the
    records, the second owes none and does not fail. *)
Definition drains (file : pystr) (owed : list pystr) (c : Child) : Prop :=
  match c with
  | Running k => forall w, appends file false owed (k w) w
  | Done => owed = []
  end.

Definition forwards (file : pystr) (c : Child) : Prop :=
  match c with
  | Running k => forall w, appends file true [] (k w) w
  | Done => True
  end.

(** A script in which the stream opens and the audio source does not
    fail. *)
Definition steady (script : Script) : Prop :=
  stt_open_error script = None /\ audio_end script = None.

(** Two whole sessions, each with its own interleaving of its flows. *)
Definition chorus : list (pystr * Participant * Script) :=
  [ (py "PA_1_TR_1", alice, hello_script);
    (py "PA_2_TR_2", bob, one_final "good morning") ].

(** A speech engine whose stream is cancelled when it is opened. *)
Definition cancelled_script : Script :=
  {| stt_open_error := Some CancelledError;
     stt_events := [];
     stt_end := None;
     audio_frames := [];
     audio_end := None;
     picks := [] |}.

(** * Properties *)

(** ** Strings *)

Lemma lstrip_blank s : blank s -> lstrip s = [].
Proof. induction 1 as [|c s Hc _ IH]; simpl; [done|]. by rewrite Hc. Qed.

Lemma strip_blank s : blank s -> strip s = [].
Proof. intros H. unfold strip, rstrip. by rewrite (lstrip_blank s H). Qed.

Lemma lstrip_nil s : lstrip s = [] -> blank s.
Proof.
  induction s as [|c s IH]; simpl; [constructor|].
  destruct (isspace c) eqn:Hc; [|done].
  intros H. unfold blank. constructor; [done | by apply IH].
Qed.

Lemma strip_nil s : strip s = [] -> blank s.
Proof.
  unfold strip, rstrip. intros H. apply lstrip_nil.
  apply (f_equal reverse) in H. rewrite reverse_involutive in H.
  destruct (lstrip s) as [|c t] eqn:E; [done|].
  (* the first character kept by [lstrip] is not a space, and it is the
     last of the reversed text *)
  assert (Hc : isspace c = false).
  { clear H. induction s as [|d s IH]; simpl in E; [done|].
    destruct (isspace d) eqn:Hd; [by apply IH|]. by injection E as -> _. }
  exfalso. revert H. rewrite reverse_cons.
  generalize (reverse t). intros u. induction u as [|d u IH]; simpl.
  - by rewrite Hc.
  - destruct (isspace d); [done|]. by destruct u.
Qed.

Lemma blank_iff_strip s : blank s <-> strip s = [].
Proof. split; [apply strip_blank | apply strip_nil]. Qed.

Lemma truthy_strip s : truthy (strip s) = true <-> strip s <> [].
Proof. by destruct (strip s). Qed.

(** ** Evaluating coroutines *)

Ltac co_unfold :=
  repeat (progress
    (unfold mbind, co_bind, mret, co_ret, bind, ret, raise, gets, modify,
       print, getitem, first_confidence, mkdir, path_exists, json_load,
       append, json_dump, try_except, datetime_now, suspend;
     simpl)).

(** The ways through [save_transcript]: one goal for each outcome of its
    tests. *)
Ltac save_cases :=
  unfold save_transcript, content_at; co_unfold;
  repeat match goal with
         | H : ?x = _ |- context [match ?x with _ => _ end] =>
             rewrite H; simpl
         | |- context [match ?x with _ => _ end] => destruct x eqn:?; simpl
         end.

(** ** [send_transcription] and [save_transcript], case by case *)

Section Steps.

Variable env : Env.

Lemma send_transcription_blank text is_final who score w :
  blank text -> send_transcription env text is_final who score w = Ret tt w.
Proof.
  intros H. unfold send_transcription. by rewrite (strip_blank _ H).
Qed.

Lemma send_transcription_accepted text is_final who score w :
  strip text <> [] ->
  sink_accepts env (sends w) = true ->
  send_transcription env text is_final who score w =
    Yield (emit (Published
                   (transcription_message text is_final who
                      (isoformat (clock env (clock_reads w))) score))
                (count_send (tick_clock w)))
          (fun w' =>
             Ret tt (emit (Printed (if is_final then LogFinal who text
                                    else LogInterim who text)) w')).
Proof.
  intros Ht Hs. apply truthy_strip in Ht.
  unfold send_transcription, publish_data. rewrite Ht. co_unfold.
  rewrite Hs. by destruct is_final.
Qed.

Lemma send_transcription_refused text is_final who score w :
  strip text <> [] ->
  sink_accepts env (sends w) = false ->
  send_transcription env text is_final who score w =
    Yield (count_send (tick_clock w)) (fun w' => Exn SendError w').
Proof.
  intros Ht Hs. apply truthy_strip in Ht.
  unfold send_transcription, publish_data. rewrite Ht. co_unfold.
  by rewrite Hs.
Qed.

Lemma save_transcript_blank text who w :
  blank text -> save_transcript env text who w = Ret tt w.
Proof.
  intros H. unfold save_transcript. by rewrite (strip_blank _ H).
Qed.

Lemma save_transcript_stored text who w file prior :
  strip text <> [] ->
  let filename := transcript_path env (ymd (clock env (clock_reads w))) in
  let entry :=
    transcript_entry (isoformat (clock env (S (clock_reads w)))) who text
                     (room_name env) in
  store_ready env filename file ->
  stored_records (files w !! file) = Some prior ->
  dump_ok env (dumps w) = true ->
  save_transcript env text who w
  = Ret tt (saved file filename (prior ++ [entry]) w).
Proof.
  intros Ht filename entry (Hmk & Hloc & Hwr) Hs Hd. apply truthy_strip in Ht.
  unfold save_transcript. rewrite Ht. co_unfold. rewrite Hmk. simpl.
  fold filename. unfold content_at. simpl. rewrite Hloc.
  destruct (files w !! file) as [[j| | |]|] eqn:E; simpl in *;
    rewrite ?Hloc, ?E; simpl.
  - destruct j; simpl in Hs; try discriminate. injection Hs as ->.
    simpl. rewrite Hwr. simpl. by rewrite Hd.
  - injection Hs as <-. rewrite Hwr. simpl. by rewrite Hd.
  - discriminate.
  - discriminate.
  - injection Hs as <-. rewrite Hwr. simpl. by rewrite Hd.
Qed.

(** A document that is not an array makes [append] fail, before the file
    is opened for writing. *)
Lemma save_transcript_not_array text who w file j :
  strip text <> [] ->
  let filename := transcript_path env (ymd (clock env (clock_reads w))) in
  mkdir_ok env = true ->
  locate env filename = Some file ->
  files w !! file = Some (Document j) ->
  (forall items, j <> JList items) ->
  save_transcript env text who w =
    Exn AttributeError (tick_clock (tick_clock w)).
Proof.
  intros Ht filename Hmk Hloc Hf Hj. apply truthy_strip in Ht.
  unfold save_transcript. rewrite Ht. co_unfold. rewrite Hmk. simpl.
  fold filename. unfold content_at. simpl.
  repeat (progress (rewrite ?Hloc, ?Hf; simpl)).
  destruct j as [|b|n|f|t|items|fields]; try done. by destruct (Hj items).
Qed.

(** A path that leads nowhere: nothing is there to read, and [open]
    fails when the file is to be written. *)
Lemma save_transcript_nowhere text who w :
  strip text <> [] ->
  let filename := transcript_path env (ymd (clock env (clock_reads w))) in
  mkdir_ok env = true ->
  locate env filename = None ->
  save_transcript env text who w = Exn OSError (tick_clock (tick_clock w)).
Proof.
  intros Ht filename Hmk Hloc. apply truthy_strip in Ht.
  unfold save_transcript. rewrite Ht. co_unfold. rewrite Hmk. simpl.
  fold filename. unfold content_at. simpl. by rewrite !Hloc.
Qed.

(** [handle_event] on an interim and on a final event that has a first
    alternative. *)
Lemma handle_event_interim participant first rest w :
  handle_event env participant
    {| type := INTERIM_TRANSCRIPT; alternatives := first :: rest |} w =
  if truthy (strip (text first)) then
    send_transcription env (text first) false (identity participant)
      (confidence first) w
  else Ret tt w.
Proof.
  unfold handle_event, has_alternatives. simpl. co_unfold.
  destruct (truthy (strip (text first))); [|done].
  by destruct (confidence first).
Qed.

Lemma handle_event_final participant first rest w :
  handle_event env participant
    {| type := FINAL_TRANSCRIPT; alternatives := first :: rest |} w =
  if truthy (strip (text first)) then
    bind_res
      (send_transcription env (text first) true (identity participant)
         (confidence first) w)
      (fun _ => save_transcript env (text first) (identity participant))
  else Ret tt w.
Proof.
  unfold handle_event, has_alternatives. simpl. co_unfold.
  destruct (truthy (strip (text first))); [|done].
  by destruct (confidence first).
Qed.

End Steps.

(** ** The scenarios of the specification *)

(** The engine yields two interim results, a final one and the end of
    speech: three messages are published, one record is written, and the
    id is released. *)
Example scenario_hello :
  hello_run.1 = Returned tt
  /\ (field "isFinal" <$> published (trace hello_run.2))
     = [Some (JBool false); Some (JBool false); Some (JBool true)]
  /\ written (trace hello_run.2)
     = [ (py "standup_2025-03-01.json",
          JList [ transcript_entry (py "2025-03-01T12:00:00") (py "alice")
                    (py "hello world") (py "standup") ]) ]
  /\ processing_tracks hello_run.2 = ∅.
Proof. repeat split; vm_compute; reflexivity. Qed.

(** Two participants publish tracks; both ids are held; after one track
    is unsubscribed one id is held. *)
Example scenario_two_tracks :
  let l := run_loop calm two_tracks
             (agent_loop calm (fun _ => hello_script) [] 0 fresh) in
  size (processing_tracks (world l)) = 2
  /\ size (processing_tracks
             (world (deliver calm (TrackUnsubscribed mic alice) l))) = 1.
Proof. split; vm_compute; reflexivity. Qed.

(** The speech engine raises in the middle of the stream: the failure is
    printed, the call returns, and the id is released. *)
Example scenario_engine_failure :
  let run := run_alone (process_audio_track calm broken_script mic alice fresh) in
  run.1 = Returned tt
  /\ In (Printed (LogError (py "alice") EngineError)) (trace run.2)
  /\ processing_tracks run.2 = ∅.
Proof.
  split; [vm_compute; reflexivity|]. split; [|vm_compute; reflexivity].
  vm_compute. tauto.
Qed.

(** A dump that fails, as with a character that the encoding of [open]
    lacks: the file has been emptied when [json.dump] raises, so the
    record it stored is gone, and the next call starts the day anew. *)
Example scenario_failed_dump :
  let file := py "standup_2025-03-01.json" in
  let run :=
    run_alone (save_transcript tongue_tied (py "hello") (py "alice")
                 one_record) in
  let again :=
    run_alone (save_transcript tongue_tied (py "world") (py "alice") run.2) in
  run.1 = Raised DumpError
  /\ files run.2 !! file = Some Malformed
  /\ written (trace run.2) = []
  /\ again.1 = Returned tt
  /\ files again.2 !! file
     = Some (Document (JList [ transcript_entry (py "2025-03-01T12:00:00")
                                 (py "alice") (py "world") (py "standup") ])).
Proof. repeat split; vm_compute; reflexivity. Qed.

(** A day's file whose bytes are not text: [json.load] raises
    [UnicodeDecodeError], which the [except] clause does not catch, and
    the file is left alone. *)
Example scenario_undecodable_file :
  let run :=
    run_alone (save_transcript calm (py "hello") (py "alice") garbled) in
  run.1 = Raised UnicodeDecodeError
  /\ files run.2 = files garbled.
Proof. split; vm_compute; reflexivity. Qed.

(** ** Text that is blank, events without alternatives *)

(** C4. A text that is empty or whitespace only is dropped everywhere:
    [send_transcription] and [save_transcript] return at once without
    touching the state, and so does the handling of an interim or final
    event whose first alternative carries such a text: nothing is
    published and nothing is written. *)
Theorem blank_text_is_dropped env words :
  blank words ->
  (forall is_final who score w,
      send_transcription env words is_final who score w = Ret tt w)
  /\ (forall who w, save_transcript env words who w = Ret tt w)
  /\ (forall participant ty first rest w,
        ty = INTERIM_TRANSCRIPT \/ ty = FINAL_TRANSCRIPT ->
        text first = words ->
        handle_event env participant
          {| type := ty; alternatives := first :: rest |} w = Ret tt w).
Proof.
  intros Hb. split; [|split].
  - intros. by apply send_transcription_blank.
  - intros. by apply save_transcript_blank.
  - intros participant ty first rest w Hty <-.
    destruct Hty as [-> | ->];
      rewrite ?handle_event_interim, ?handle_event_final;
      by rewrite (strip_blank _ Hb).
Qed.

Lemma blank_text_is_dropped_witness :
  handle_event calm alice hush fresh = Ret tt fresh.
Proof.
  assert (Hb : blank (py "  ")) by repeat constructor.
  apply (proj2 (proj2 (blank_text_is_dropped calm (py "  ") Hb))).
  - by right.
  - reflexivity.
Defined.

Lemma raises_in_bind {A B} e (r : Res A) (f : A -> Co B) :
  ~ raises_in e r -> (forall a w, ~ raises_in e (f a w)) ->
  ~ raises_in e (bind_res r f).
Proof.
  intros Hr Hf. induction r as [a w|e' w|w k IH]; simpl in *; auto.
  intros [w' H]. apply (IH w'); eauto.
Qed.

Lemma send_transcription_no_IndexError env text is_final who score w :
  ~ raises_in IndexError (send_transcription env text is_final who score w).
Proof.
  unfold send_transcription, publish_data.
  destruct (truthy (strip text)); co_unfold; [|tauto].
  destruct (sink_accepts _ _); simpl; intros [w' H]; simpl in H;
    [by destruct is_final | done].
Qed.

Lemma save_transcript_no_IndexError env text who w :
  ~ raises_in IndexError (save_transcript env text who w).
Proof.
  save_cases; try tauto; done.
Qed.

(** C9. An interim or final event whose list of alternatives is empty is
    passed over: handling it returns at once in the state it started
    from.  And the first alternative is only read behind the test that
    the list is not empty: handling an event never raises [IndexError],
    whatever the event and whatever happens while it is suspended. *)
Theorem no_alternatives_no_output env participant event :
  (alternatives event = [] ->
   type event = INTERIM_TRANSCRIPT \/ type event = FINAL_TRANSCRIPT ->
   forall w, handle_event env participant event w = Ret tt w)
  /\ (forall w, ~ raises_in IndexError (handle_event env participant event w)).
Proof.
  destruct event as [ty alts]. simpl. split.
  - intros -> [-> | ->] w; reflexivity.
  - intros w. destruct alts as [|first rest].
    + unfold handle_event, has_alternatives. destruct ty; simpl; tauto.
    + destruct ty;
        rewrite ?handle_event_interim, ?handle_event_final;
        try (unfold handle_event; simpl; tauto);
        destruct (truthy (strip (text first))); simpl; try tauto.
      * apply send_transcription_no_IndexError.
      * apply raises_in_bind.
        -- apply send_transcription_no_IndexError.
        -- intros. apply save_transcript_no_IndexError.
Qed.

Lemma no_alternatives_no_output_witness :
  handle_event calm alice (silent FINAL_TRANSCRIPT) fresh = Ret tt fresh.
Proof.
  refine (proj1 (no_alternatives_no_output calm alice (silent FINAL_TRANSCRIPT))
            eq_refl _ fresh).
  by right.
Defined.

(** C10. Only the first alternative of an event is looked at, and of it
    only the text and the confidence: two events of the same type whose
    first alternatives agree on these two are handled identically, as
    whole resumptions, so they publish the same packets and write the
    same records under every schedule. *)
Theorem only_first_alternative_counts env participant ty first first'
    rest rest' w :
  text first = text first' ->
  confidence first = confidence first' ->
  handle_event env participant {| type := ty; alternatives := first :: rest |} w
  = handle_event env participant
      {| type := ty; alternatives := first' :: rest' |} w.
Proof.
  intros Ht Hc.
  destruct ty;
    rewrite ?handle_event_interim, ?handle_event_final;
    try reflexivity; by rewrite Ht, Hc.
Qed.

Lemma only_first_alternative_counts_witness :
  handle_event calm alice
    {| type := FINAL_TRANSCRIPT; alternatives := [unscored; scored] |} fresh
  = handle_event calm alice
      {| type := FINAL_TRANSCRIPT;
         alternatives :=
           [ {| language := py "en-GB"; text := py "good morning";
                confidence := None |} ] |} fresh.
Proof.
  apply only_first_alternative_counts; reflexivity.
Defined.

(** ** The transcript store *)

(** The claim C5 says that an append to an absent file does not fail and
    leaves the new record in the file.  The path of the file is made of
    the name of the room, and a slash in that name sends [pathlib] one
    directory further down.  In the room [team/standup], with no directory
    [team] among the transcripts, nothing is found at the path, the prior
    state is taken to be the empty list, and [open] fails when the list is
    to be written: the append raises and no file holds the record. *)
Lemma append_fails_below_missing_directory :
  let run :=
    run_alone (save_transcript nested (py "hello world") (py "alice") fresh) in
  strip (py "hello world") <> []
  /\ transcript_path nested (py "2025-03-01")
     = Below [py "team"; py "standup_2025-03-01.json"]
  /\ content_at nested (transcript_path nested (py "2025-03-01")) fresh = None
  /\ run.1 = Raised OSError
  /\ files run.2 = files fresh
  /\ written (trace run.2) = [].
Proof.
  split; [vm_compute; discriminate|]. repeat split; vm_compute; reflexivity.
Qed.

(** C5, amended. [save_transcript] with a text that is not blank.  When
    the store takes what is written (the transcripts directory is there or
    can be made, the path made of the room and the day leads to a file,
    that file can be opened for writing and the dump succeeds) and
    the file is missing, holds text that [json.load] rejects, or holds an
    array of records: the call returns, the file then holds the records it
    stored before followed by the new one, and no other file has changed.
    A file that is missing or holds such text stores no record, so it then
    holds the new record alone.  When the directory cannot be made, or the
    path leads to no file that can be opened for writing: the call raises,
    whatever was at the path, and every file is as it was. *)
Theorem append_keeps_prior_records env text who w :
  strip text <> [] ->
  let filename := transcript_path env (ymd (clock env (clock_reads w))) in
  let entry :=
    transcript_entry (isoformat (clock env (S (clock_reads w)))) who text
                     (room_name env) in
  (forall file prior,
      store_ready env filename file ->
      stored_records (files w !! file) = Some prior ->
      dump_ok env (dumps w) = true ->
      exists w',
        save_transcript env text who w = Ret tt w'
        /\ files w' !! file = Some (Document (JList (prior ++ [entry])))
        /\ (forall other, other <> file -> files w' !! other = files w !! other)
        /\ written (trace w') =
             written (trace w) ++ [(file, JList (prior ++ [entry]))]
        /\ (files w !! file = None \/ files w !! file = Some Malformed ->
             files w' !! file = Some (Document (JList [entry]))))
  /\ ((forall file, ~ store_ready env filename file) ->
      exists e w',
        save_transcript env text who w = Exn e w'
        /\ files w' = files w
        /\ written (trace w') = written (trace w)).
Proof.
  intros Ht filename entry. split.
  - intros file prior Hready Hs Hd.
    exists (saved file filename (prior ++ [entry]) w).
    split; [|split; [|split; [|split]]].
    + by apply save_transcript_stored.
    + simpl. apply lookup_insert_eq.
    + intros other Hne. simpl. by apply lookup_insert_ne.
    + simpl. unfold written. by rewrite !omap_app, app_nil_r.
    + intros H. simpl. rewrite lookup_insert_eq.
      destruct H as [H | H]; rewrite H in Hs; by injection Hs as <-.
  - intros Hno. apply truthy_strip in Ht.
    assert (Hnot : forall file,
              mkdir_ok env = true -> locate env filename = Some file ->
              writable env file = true -> False).
    { intros file H1 H2 H3. by apply (Hno file). }
    revert Hnot. unfold filename, save_transcript. clear Hno.
    rewrite Ht. simpl. save_cases; intros Hnot;
      try discriminate;
      try (exfalso; eapply Hnot; by eauto);
      by eexists _, _.
Qed.

Lemma append_keeps_prior_records_witness :
  (exists w',
     save_transcript calm (py "hello world") (py "alice") fresh = Ret tt w'
     /\ files w' !! py "standup_2025-03-01.json" =
          Some (Document (JList
            [transcript_entry (py "2025-03-01T12:00:00") (py "alice")
               (py "hello world") (py "standup")])))
  /\ (exists e w',
       save_transcript nested (py "hello world") (py "alice") fresh = Exn e w'
       /\ files w' = files fresh).
Proof.
  assert (Ht : strip (py "hello world") <> []) by (vm_compute; discriminate).
  split.
  - destruct (proj1 (append_keeps_prior_records calm (py "hello world")
                       (py "alice") fresh Ht)
                (py "standup_2025-03-01.json") [])
      as (w' & H1 & H2 & _).
    + repeat split.
    + reflexivity.
    + reflexivity.
    + exists w'. split; [exact H1 | exact H2].
  - destruct (proj2 (append_keeps_prior_records nested (py "hello world")
                       (py "alice") fresh Ht))
      as (e & w' & H1 & H2 & _).
    + intros file (_ & Hloc & _). vm_compute in Hloc. discriminate.
    + exists e, w'. split; [exact H1 | exact H2].
Defined.

(** [save_transcript] publishes nothing, however it ends. *)
Lemma save_transcript_published env words who w :
  published (trace (run_alone (save_transcript env words who w)).2)
  = published (trace w).
Proof.
  save_cases; try done;
    unfold published; by rewrite !omap_app, !app_nil_r.
Qed.

(** When the room refuses the packet, [send_transcription] raises and
    the record of a final event is not written. *)
Lemma refused_final_is_not_saved env participant first rest w :
  strip (text first) <> [] ->
  sink_accepts env (sends w) = false ->
  run_alone (handle_event env participant
               {| type := FINAL_TRANSCRIPT; alternatives := first :: rest |} w)
  = (Raised SendError, count_send (tick_clock w)).
Proof.
  intros Ht Hs. rewrite handle_event_final, (proj2 (truthy_strip _) Ht).
  by rewrite (send_transcription_refused _ _ _ _ _ _ Ht Hs).
Qed.

(** The claim C3 says that every final event with a text that is not
    blank is published once and stored once.  The record is appended only
    after [send_transcription] has returned, and a packet that the room
    refuses makes it raise: in a room that refuses the packet, the final
    event [hello world] is neither published nor stored, and the
    exception leaves the loop of the flow. *)
Lemma refused_final_is_lost :
  let event := said FINAL_TRANSCRIPT "hello world" in
  let run := run_alone (handle_event stormy alice event fresh) in
  type event = FINAL_TRANSCRIPT
  /\ (exists first rest,
        alternatives event = first :: rest /\ strip (text first) <> [])
  /\ run.1 = Raised SendError
  /\ published (trace run.2) = []
  /\ written (trace run.2) = []
  /\ files run.2 = files fresh
  /\ (run_alone (process_stt_events stormy alice [event] None fresh)).1
     = Raised SendError.
Proof.
  split; [reflexivity|]. split.
  - eexists _, _. split; [reflexivity|]. vm_compute. discriminate.
  - repeat split; vm_compute; reflexivity.
Qed.

(** C3, amended. A final event whose first alternative has a text that
    is not blank, handled on its own.  When the room accepts the packet,
    one message is published, with [isFinal] true, whatever becomes of
    the record.  When moreover the store takes what is written and the
    day's file is missing, holds text that [json.load] rejects or holds an
    array: the handling returns, and what it did is, in this order,
    publish the message, print it, write the file with one record
    appended, and print that; nothing else was published or written.
    When the room refuses the packet, the handling raises the failure of
    the send: nothing is published, nothing is written and the files are
    as they were. *)
Theorem final_transcript_sent_then_saved env participant first rest w :
  strip (text first) <> [] ->
  let event :=
    {| type := FINAL_TRANSCRIPT; alternatives := first :: rest |} in
  let run := run_alone (handle_event env participant event w) in
  let message :=
    transcription_message (text first) true (identity participant)
      (isoformat (clock env (clock_reads w))) (confidence first) in
  let filename :=
    transcript_path env (ymd (clock env (1 + clock_reads w))) in
  let record :=
    transcript_entry (isoformat (clock env (2 + clock_reads w)))
      (identity participant) (text first) (room_name env) in
  (sink_accepts env (sends w) = true ->
   published (trace run.2) = published (trace w) ++ [message]
   /\ field "isFinal" message = Some (JBool true))
  /\ (forall file prior,
        sink_accepts env (sends w) = true ->
        store_ready env filename file ->
        stored_records (files w !! file) = Some prior ->
        dump_ok env (dumps w) = true ->
        run.1 = Returned tt
        /\ trace run.2 =
             trace w ++ [ Published message;
                          Printed (LogFinal (identity participant) (text first));
                          Wrote file (JList (prior ++ [record]));
                          Printed (LogSaved filename) ]
        /\ files run.2
           = <[file := Document (JList (prior ++ [record]))]> (files w))
  /\ (sink_accepts env (sends w) = false ->
      run.1 = Raised SendError
      /\ published (trace run.2) = published (trace w)
      /\ written (trace run.2) = written (trace w)
      /\ files run.2 = files w).
Proof.
  intros Ht event run message filename record. unfold run, event. clear run.
  split; [|split].
  - intros Hs. split; [|reflexivity].
    rewrite handle_event_final, (proj2 (truthy_strip _) Ht).
    rewrite (send_transcription_accepted _ _ _ _ _ _ Ht Hs). simpl.
    rewrite save_transcript_published. simpl.
    unfold published. by rewrite !omap_app, !app_nil_r.
  - intros file prior Hs Hready Hp Hd.
    rewrite handle_event_final, (proj2 (truthy_strip _) Ht).
    rewrite (send_transcription_accepted _ _ _ _ _ _ Ht Hs). simpl.
    set (w1 := emit _ (emit (Published _) _)).
    rewrite (save_transcript_stored env _ _ w1 file prior Ht Hready Hp Hd).
    simpl. split; [reflexivity|]. split; [|reflexivity].
    by rewrite <- !app_assoc.
  - intros Hs.
    rewrite (refused_final_is_not_saved env participant first rest w Ht Hs).
    done.
Qed.

Lemma final_transcript_sent_then_saved_witness :
  (let run :=
     run_alone (handle_event calm alice (said FINAL_TRANSCRIPT "hello world")
                  fresh) in
   run.1 = Returned tt
   /\ length (published (trace run.2)) = 1
   /\ length (written (trace run.2)) = 1)
  /\ (run_alone (handle_event stormy alice (said FINAL_TRANSCRIPT "hello world")
                   fresh)).1
     = Raised SendError.
Proof.
  assert (Ht : strip (py "hello world") <> []) by (vm_compute; discriminate).
  pose proof (final_transcript_sent_then_saved calm alice
                {| language := py "en-US"; text := py "hello world";
                   confidence := Some 0.875%float |} [] fresh Ht)
    as (_ & Hsaved & _).
  pose proof (final_transcript_sent_then_saved stormy alice
                {| language := py "en-US"; text := py "hello world";
                   confidence := Some 0.875%float |} [] fresh Ht)
    as (_ & _ & Hrefused).
  split.
  - destruct (Hsaved (py "standup_2025-03-01.json") [])
      as (Hrun & Htrace & _).
    + reflexivity.
    + repeat split.
    + reflexivity.
    + reflexivity.
    + split; [exact Hrun|]. cbv zeta. unfold said. rewrite Htrace. by split.
  - destruct Hrefused as [Hrun _]; [reflexivity | exact Hrun].
Defined.

(** ** The confidence score *)

(** The claim C7 says that the confidence field is absent from a message
    published for an alternative without a score.  It is there, and
    null. *)
Lemma null_confidence_is_published :
  confidence unscored = None
  /\ exists message,
       published
         (trace (run_alone
                   (handle_event calm alice
                      {| type := INTERIM_TRANSCRIPT;
                         alternatives := [unscored] |} fresh)).2)
       = [message]
       /\ field "confidence" message = Some JNull
       /\ field "confidence" message <> None.
Proof.
  split; [reflexivity|]. eexists. split; [vm_compute; reflexivity|].
  split; [reflexivity | discriminate].
Qed.

(** C7, amended. The message published for an interim or final event
    always has a confidence field: it holds the score of the first
    alternative, as the engine gave it, when there is one, and null when
    there is none. *)
Theorem confidence_is_passed_through env participant (is_final : bool) first
    rest w :
  strip (text first) <> [] ->
  sink_accepts env (sends w) = true ->
  let event :=
    {| type := if is_final then FINAL_TRANSCRIPT else INTERIM_TRANSCRIPT;
       alternatives := first :: rest |} in
  exists message,
    published (trace (run_alone (handle_event env participant event w)).2)
    = published (trace w) ++ [message]
    /\ field "isFinal" message = Some (JBool is_final)
    /\ field "confidence" message =
         Some match confidence first with
              | Some score => JFloat score
              | None => JNull
              end.
Proof.
  intros Ht Hs event.
  exists (transcription_message (text first) is_final (identity participant)
            (isoformat (clock env (clock_reads w))) (confidence first)).
  split; [|split; reflexivity].
  unfold event. destruct is_final.
  - rewrite handle_event_final, (proj2 (truthy_strip _) Ht).
    rewrite (send_transcription_accepted _ _ _ _ _ _ Ht Hs). simpl.
    rewrite save_transcript_published. simpl.
    unfold published. by rewrite !omap_app, !app_nil_r.
  - rewrite handle_event_interim, (proj2 (truthy_strip _) Ht).
    rewrite (send_transcription_accepted _ _ _ _ _ _ Ht Hs). simpl.
    unfold published. by rewrite !omap_app, !app_nil_r.
Qed.

Lemma confidence_is_passed_through_witness :
  exists message,
    published
      (trace (run_alone
                (handle_event calm alice
                   {| type := FINAL_TRANSCRIPT; alternatives := [scored] |}
                   fresh)).2)
    = [message]
    /\ field "confidence" message = Some (JFloat 0.5%float).
Proof.
  destruct (confidence_is_passed_through calm alice true scored [] fresh)
    as (message & Hp & _ & Hc).
  - vm_compute. discriminate.
  - reflexivity.
  - exists message. split; [exact Hp | exact Hc].
Defined.

(** ** The end of a session *)

(** A [finally] clause without suspension point runs on the state the
    body ends in, whatever the other tasks did in between. *)
Lemma run_with_try_finally {A} others (r : Res A) cleanup g :
  (forall w, cleanup w = Ret tt (g w)) ->
  forall n,
    run_with others n (try_finally_res r cleanup) =
      ((run_with others n r).1, g (run_with others n r).2).
Proof.
  intros Hc. induction r as [a w|e w|w k IH]; intros n; simpl.
  - by rewrite Hc.
  - by rewrite Hc.
  - apply IH.
Qed.

Lemma track_session_releases env script track_id participant others n w :
  track_id ∉
    processing_tracks
      (run_with others n (track_session env script track_id participant w)).2.
Proof.
  unfold track_session, try_finally.
  rewrite (run_with_try_finally others _ _
             (fun w => emit (Printed (LogStopped track_id))
                         (set_tracks (processing_tracks w ∖ {[track_id]}) w)))
    by reflexivity.
  simpl. intros [_ Hn]%elem_of_difference. apply Hn. by apply elem_of_singleton.
Qed.

(** C1. When a session ends its track id is no longer in
    [processing_tracks]: whatever the speech engine and the audio source
    do, whether the two flows end normally or one of them raises (an
    [Exception] or not), and whatever the other tasks do to the state
    while the session is suspended.  This holds of the [try] statement of
    [process_audio_track], which is the session, from any state, and of
    the whole call that starts a session on an id that is free. *)
Theorem session_releases_track_id env script track participant others n w :
  let track_id := track_id_of participant track in
  (track_id ∉
     processing_tracks
       (run_with others n (track_session env script track_id participant w)).2)
  /\ (track_id ∉ processing_tracks w ->
      track_id ∉
        processing_tracks
          (run_with others n
             (process_audio_track env script track participant w)).2).
Proof.
  intros track_id. split; [apply track_session_releases|].
  intros Hfree. unfold process_audio_track. co_unfold.
  rewrite bool_decide_eq_false_2 by exact Hfree. simpl.
  apply track_session_releases.
Qed.

Lemma session_releases_track_id_witness :
  track_id_of alice mic ∉
    processing_tracks
      (run_with (fun _ w => w) 0
         (process_audio_track calm hello_script mic alice fresh)).2.
Proof.
  apply (session_releases_track_id calm hello_script mic alice).
  simpl. set_solver.
Defined.

(** ** The heartbeat *)

Lemma run_with_send_status_updates env others n turns w :
  run_with others n (send_status_updates env (S turns) w) =
    let w1 := others n (emit (Slept 30) w) in
    if sink_accepts env (sends w1) then
      let w2 :=
        others (S n)
          (emit (Published
                   (status_message (size (processing_tracks w1))
                      (isoformat (clock env (clock_reads w1)))))
                (count_send (tick_clock w1))) in
      run_with others (S (S n))
        (send_status_updates env turns
           (emit (Printed (LogStatus (size (processing_tracks w2)))) w2))
    else (Raised SendError, others (S n) (count_send (tick_clock w1))).
Proof.
  simpl. unfold status_update, sleep, publish_data. co_unfold.
  by destruct (sink_accepts env _).
Qed.

Lemma beat_shift env regs n reads k :
  beat env regs (S (S n)) (S reads) k = beat env regs n reads (S k).
Proof.
  unfold beat.
  replace (S (S n) + 2 * k) with (n + 2 * S k) by lia.
  by replace (S reads + k) with (reads + S k) by lia.
Qed.

Lemma flat_map_seq_S {A} (f g : nat -> list A) len :
  (forall k, g k = f (S k)) ->
  forall start, flat_map f (seq (S start) len) = flat_map g (seq start len).
Proof.
  intros Hfg. induction len as [|len IH]; intros start; simpl; [done|].
  by rewrite Hfg, IH.
Qed.

(** The loop for [turns] turns when the first [j] packets are accepted
    and, if the loop gets that far, the next one is refused. *)
Lemma heartbeat_run env regs turns :
  forall j n w,
    j <= turns ->
    (forall k, k < j -> sink_accepts env (sends w + k) = true) ->
    (j < turns -> sink_accepts env (sends w + j) = false) ->
    let res :=
      run_with (registry_changes regs) n (send_status_updates env turns w) in
    res.1 = (if bool_decide (j < turns) then Raised SendError
             else Returned tt)
    /\ trace res.2 =
         trace w ++ flat_map (beat env regs n (clock_reads w)) (seq 0 j)
         ++ (if bool_decide (j < turns) then [Slept 30] else []).
Proof.
  induction turns as [|turns IH]; intros j n w Hj Hacc Href.
  - assert (j = 0) as -> by lia. simpl. by rewrite app_nil_r.
  - intros res. unfold res. rewrite run_with_send_status_updates.
    cbv zeta. 
    assert (Hs : sends (registry_changes regs n (emit (Slept 30) w)) = sends w + 0) by (simpl; lia).
    rewrite Hs.
    destruct j as [|j].
    + rewrite Href by lia.
      rewrite bool_decide_eq_true_2 by lia. by simpl.
    + rewrite Hacc by lia.
      match goal with |- context [send_status_updates env turns ?w] => set (w3 := w) end.
      destruct (IH j (S (S n)) w3) as [Ho Ht].
      * lia.
      * intros k Hk. simpl. replace (S (sends w + k)) with (sends w + S k) by lia.
        apply Hacc. lia.
      * intros Hlt. simpl. replace (S (sends w + j)) with (sends w + S j) by lia.
        apply Href. lia.
      * split.
        -- rewrite Ho. destruct (decide (j < turns)).
           ++ by rewrite !bool_decide_eq_true_2 by lia.
           ++ by rewrite !bool_decide_eq_false_2 by lia.
        -- rewrite Ht.
           change (seq 0 (S j)) with (0 :: seq 1 j). cbn [flat_map].
           rewrite (flat_map_seq_S _ (beat env regs (S (S n)) (clock_reads w3)))
             by (intros; apply (beat_shift env regs n (clock_reads w))).
           assert (Hb : bool_decide (j < turns) = bool_decide (S j < S turns)).
           { apply bool_decide_ext. lia. }
           rewrite Hb. subst w3. simpl trace. unfold beat at 2.
           rewrite !Nat.add_0_r, <- !app_assoc. simpl. reflexivity.
Qed.

(** The claim C6 says that a send that fails is logged and does not stop
    the later ticks.  The loop has no handler: the exception ends it.
    Here the room refuses the first packet only, and the process lives
    for three turns: the loop sleeps once and is over. *)
Lemma heartbeat_stops_at_failed_send :
  sink_accepts stormy 0 = false
  /\ sink_accepts stormy 1 = true
  /\ run_alone (send_status_updates stormy 3 fresh)
     = (Raised SendError, count_send (tick_clock (emit (Slept 30) fresh)))
  /\ trace (run_alone (send_status_updates stormy 3 fresh)).2 = [Slept 30].
Proof. repeat split. Qed.

(** C6, amended. The heartbeat sleeps 30 seconds, reads the size of
    [processing_tracks] as it is when the sleep is over, publishes it and
    prints it, turn after turn, as long as the room accepts the packets:
    after [turns] turns that is all it has done.  The first packet that
    the room refuses ends it: it has slept for that turn, the exception
    leaves the loop, and no later turn sleeps, publishes or prints,
    however long the process lives. *)
Theorem heartbeat_until_first_refusal env regs turns n w :
  let res :=
    run_with (registry_changes regs) n (send_status_updates env turns w) in
  ((forall k, k < turns -> sink_accepts env (sends w + k) = true) ->
   res.1 = Returned tt
   /\ trace res.2 =
        trace w ++ flat_map (beat env regs n (clock_reads w)) (seq 0 turns))
  /\ (forall j,
        j < turns ->
        (forall k, k < j -> sink_accepts env (sends w + k) = true) ->
        sink_accepts env (sends w + j) = false ->
        res.1 = Raised SendError
        /\ trace res.2 =
             trace w ++ flat_map (beat env regs n (clock_reads w)) (seq 0 j)
             ++ [Slept 30]).
Proof.
  intros res. split.
  - intros Hacc.
    destruct (heartbeat_run env regs turns turns n w) as [Ho Ht];
      [lia | exact Hacc | lia |].
    rewrite bool_decide_eq_false_2 in Ho, Ht by lia.
    rewrite app_nil_r in Ht. by split.
  - intros j Hj Hacc Href.
    destruct (heartbeat_run env regs turns j n w) as [Ho Ht];
      [lia | exact Hacc | by intros _ |].
    rewrite bool_decide_eq_true_2 in Ho, Ht by lia.
    by split.
Qed.

Lemma heartbeat_until_first_refusal_witness :
  published
    (trace (run_with (registry_changes (fun n => if n =? 2 then {[ py "PA_1_TR_1" ]} else ∅)) 0
              (send_status_updates calm 2 fresh)).2)
  = [ status_message 0 (py "2025-03-01T12:00:00");
      status_message 1 (py "2025-03-01T12:00:00") ]
  /\ trace (run_with (registry_changes (fun _ => ∅)) 0
              (send_status_updates stormy 3 fresh)).2 = [Slept 30].
Proof.
  split.
  - destruct (proj1 (heartbeat_until_first_refusal calm
                       (fun n => if n =? 2 then {[ py "PA_1_TR_1" ]} else ∅)
                       2 0 fresh)) as [_ Ht].
    + reflexivity.
    + rewrite Ht. reflexivity.
  - destruct (proj2 (heartbeat_until_first_refusal stormy (fun _ => ∅)
                       3 0 fresh) 0) as [_ Ht].
    + lia.
    + intros k Hk. lia.
    + reflexivity.
    + rewrite Ht. reflexivity.
Defined.

(** ** Quiet code *)

Lemma quiet_refl w : quiet w w.
Proof. split; [done|]. exists []. by rewrite app_nil_r. Qed.

Lemma quiet_trans w0 w1 w2 : quiet w0 w1 -> quiet w1 w2 -> quiet w0 w2.
Proof.
  intros [Hr1 (m1 & Ht1 & Hn1)] [Hr2 (m2 & Ht2 & Hn2)]. split; [congruence|].
  exists (m1 ++ m2). split.
  - by rewrite Ht2, Ht1, app_assoc.
  - by apply Forall_app.
Qed.

Lemma quiet_emit e w0 w : neutral e = true -> quiet w0 w -> quiet w0 (emit e w).
Proof.
  intros He Hq. apply (quiet_trans _ _ _ Hq). split; [done|].
  exists [e]. split; [done|]. by constructor.
Qed.

Lemma quiet_same w0 w w' :
  processing_tracks w' = processing_tracks w -> trace w' = trace w ->
  quiet w0 w -> quiet w0 w'.
Proof.
  intros Hr Ht Hq. apply (quiet_trans _ _ _ Hq). split; [done|].
  exists []. by rewrite app_nil_r.
Qed.

Lemma quiet_tick_clock w0 w : quiet w0 w -> quiet w0 (tick_clock w).
Proof. by apply quiet_same. Qed.

Lemma quiet_count_send w0 w : quiet w0 w -> quiet w0 (count_send w).
Proof. by apply quiet_same. Qed.

Lemma quiet_count_dump w0 w : quiet w0 w -> quiet w0 (count_dump w).
Proof. by apply quiet_same. Qed.

Lemma quiet_set_files fs w0 w : quiet w0 w -> quiet w0 (set_files fs w).
Proof. by apply quiet_same. Qed.

Ltac quiet :=
  repeat first
    [ apply quiet_refl
    | apply quiet_emit; [reflexivity|]
    | apply quiet_tick_clock
    | apply quiet_count_send
    | apply quiet_count_dump
    | apply quiet_set_files ].

Lemma keeps_quiet_prefix {A} (r : Res A) w0 w :
  quiet w0 w -> keeps_quiet r w -> keeps_quiet r w0.
Proof.
  intros Hq. destruct r; simpl.
  - by apply quiet_trans.
  - by apply quiet_trans.
  - intros [H1 H2]. split; [by apply (quiet_trans _ _ _ Hq)|done].
Qed.

Lemma keeps_quiet_bind {A B} (r : Res A) (f : A -> Co B) w0 :
  keeps_quiet r w0 -> (forall a w, keeps_quiet (f a w) w) ->
  keeps_quiet (bind_res r f) w0.
Proof.
  intros Hr Hf. revert w0 Hr.
  induction r as [a w|e w|w k IH]; intros w0 Hr; simpl in *.
  - by apply (keeps_quiet_prefix _ _ w).
  - done.
  - destruct Hr as [Hq Hk]. split; [done|]. intros w1. by apply IH.
Qed.

Lemma keeps_quiet_try_except {A} catches (r : Res A) handler w0 :
  keeps_quiet r w0 -> (forall e w, keeps_quiet (handler e w) w) ->
  keeps_quiet (try_except_res catches r handler) w0.
Proof.
  intros Hr Hh. revert w0 Hr.
  induction r as [a w|e w|w k IH]; intros w0 Hr; simpl in *.
  - done.
  - destruct (catches e); [|done]. by apply (keeps_quiet_prefix _ _ w).
  - destruct Hr as [Hq Hk]. split; [done|]. intros w1. by apply IH.
Qed.

Section Quiet.

Variable env : Env.

Lemma send_transcription_quiet words is_final who score w :
  keeps_quiet (send_transcription env words is_final who score w) w.
Proof.
  unfold send_transcription, publish_data.
  destruct (truthy (strip words)); co_unfold; [|quiet].
  destruct (sink_accepts env (sends w)); simpl.
  - split; [quiet|]. intros w1. destruct is_final; simpl; quiet.
  - split; [quiet|]. intros w1. simpl. quiet.
Qed.

Lemma save_transcript_quiet words who w :
  keeps_quiet (save_transcript env words who w) w.
Proof.
  save_cases; quiet.
Qed.

Lemma handle_event_quiet participant event w :
  keeps_quiet (handle_event env participant event w) w.
Proof.
  destruct event as [ty [|first rest]].
  - unfold handle_event, has_alternatives. destruct ty; co_unfold; quiet.
  - destruct ty;
      rewrite ?handle_event_interim, ?handle_event_final;
      try (unfold handle_event; co_unfold; quiet; fail);
      destruct (truthy (strip (text first))); simpl; try quiet.
    + apply send_transcription_quiet.
    + apply keeps_quiet_bind; [apply send_transcription_quiet|].
      intros. apply save_transcript_quiet.
Qed.

Lemma process_stt_events_quiet participant events stream_end w :
  keeps_quiet (process_stt_events env participant events stream_end w) w.
Proof.
  revert w. induction events as [|event rest IH]; intros w; simpl; co_unfold.
  - split; [quiet|]. intros w1. destruct stream_end; simpl; quiet.
  - split; [quiet|]. intros w1.
    apply keeps_quiet_bind; [apply handle_event_quiet|]. intros _ w2. apply IH.
Qed.

Lemma push_audio_frames_quiet frames audio_end w :
  keeps_quiet (push_audio_frames frames audio_end w) w.
Proof.
  revert w. induction frames as [|frame rest IH]; intros w; simpl; co_unfold.
  - split; [quiet|]. intros w1. destruct audio_end; simpl; quiet.
  - split; [quiet|]. intros w1.
    apply (keeps_quiet_prefix _ _ (emit (PushedFrame frame) w1)); [quiet|].
    apply IH.
Qed.

End Quiet.

Lemma run_out_quiet r next w0 :
  keeps_quiet r w0 -> (forall w, keeps_quiet (next w) w) ->
  keeps_quiet (run_out r next) w0.
Proof.
  intros Hr Hn. revert w0 Hr.
  induction r as [a w|e w|w k IH]; intros w0 Hr; simpl in *.
  - done.
  - split; [done|]. intros w1. simpl. apply quiet_refl.
  - destruct Hr as [Hq Hk]. split; [done|]. intros w1. by apply IH.
Qed.

Lemma resume_child_quiet c next w :
  child_quiet c -> (forall w, keeps_quiet (next w) w) ->
  keeps_quiet (resume_child c next w) w.
Proof.
  intros Hc Hn. destruct c as [k|]; simpl; [|done].
  by apply run_out_quiet.
Qed.

Lemma gather_loop_quiet picks :
  forall a b w,
    child_quiet a -> child_quiet b ->
    keeps_quiet (gather_loop picks a b w) w.
Proof.
  induction picks as [|pick picks IH]; intros a b w Ha Hb; simpl.
  - destruct (is_done a && is_done b); [apply quiet_refl|].
    apply resume_child_quiet; [done|]. intros w1.
    apply resume_child_quiet; [done|]. intros w2. apply quiet_refl.
  - destruct (is_done a && is_done b); [apply quiet_refl|].
    set (first := if is_done b then true else if is_done a then false else pick).
    destruct first.
    + destruct a as [k|]; [|apply quiet_refl].
      specialize (Ha w). destruct (k w) as [u w1|e w1|w1 k']; simpl in *.
      * split; [done|]. intros w2. by apply IH.
      * split; [done|]. intros w2. apply quiet_refl.
      * destruct Ha as [Hq Hk]. split; [done|]. intros w2. by apply IH.
    + destruct b as [k|]; [|apply quiet_refl].
      specialize (Hb w). destruct (k w) as [u w1|e w1|w1 k']; simpl in *.
      * split; [done|]. intros w2. by apply IH.
      * split; [done|]. intros w2. apply quiet_refl.
      * destruct Hb as [Hq Hk]. split; [done|]. intros w2. by apply IH.
Qed.

Lemma gather_quiet picks (a b : Co unit) w :
  (forall w, keeps_quiet (a w) w) -> (forall w, keeps_quiet (b w) w) ->
  keeps_quiet (gather picks a b w) w.
Proof.
  intros Ha Hb. simpl. split; [apply quiet_refl|]. intros w1.
  by apply gather_loop_quiet.
Qed.

Lemma run_flows_quiet env script participant w :
  keeps_quiet (run_flows env script participant w) w.
Proof.
  unfold run_flows. destruct (stt_open_error script); [apply quiet_refl|].
  apply gather_quiet; intros w1.
  - apply process_stt_events_quiet.
  - apply push_audio_frames_quiet.
Qed.

Lemma send_status_updates_quiet env turns w :
  keeps_quiet (send_status_updates env turns w) w.
Proof.
  revert w. induction turns as [|turns IH]; intros w; simpl; [apply quiet_refl|].
  unfold status_update, sleep, publish_data. co_unfold.
  split; [quiet|]. intros w1.
  destruct (sink_accepts env (sends w1)); simpl.
  - split; [quiet|]. intros w2.
    apply (keeps_quiet_prefix _ _ (emit (Printed (LogStatus (size (processing_tracks w2)))) w2));
      [quiet|]. apply IH.
  - split; [quiet|]. intros w2. simpl. quiet.
Qed.

(** ** Holding an id *)

Lemma started_snoc track_id t e :
  started track_id (t ++ [e])
  = started track_id t + (if is_starting track_id e then 1 else 0).
Proof.
  unfold started. rewrite filter_app, length_app. f_equal.
  rewrite filter_cons, filter_nil. by destruct (is_starting track_id e).
Qed.

Lemma stopped_snoc track_id t e :
  stopped track_id (t ++ [e])
  = stopped track_id t + (if is_stopped track_id e then 1 else 0).
Proof.
  unfold stopped. rewrite filter_app, length_app. f_equal.
  rewrite filter_cons, filter_nil. by destruct (is_stopped track_id e).
Qed.

Lemma neutral_started track_id t more :
  Forall (fun e => neutral e = true) more ->
  started track_id (t ++ more) = started track_id t
  /\ stopped track_id (t ++ more) = stopped track_id t.
Proof.
  intros H. revert t. induction H as [|e more He _ IH]; intros t.
  - by rewrite app_nil_r.
  - rewrite (assoc_L (++) t [e] more : t ++ e :: more = (t ++ [e]) ++ more).
    destruct (IH (t ++ [e])) as [-> ->].
    rewrite started_snoc, stopped_snoc.
    destruct e as [| |[]| | |]; simpl in *; try done; lia.
Qed.

Lemma holders_insert track_id hs i h h' :
  hs !! i = Some h ->
  holders track_id (<[i := h']> hs)
  + (if decide (h = Some track_id) then 1 else 0)
  = holders track_id hs + (if decide (h' = Some track_id) then 1 else 0).
Proof.
  unfold holders. revert i. induction hs as [|x hs IH]; intros i Hi; [done|].
  destruct i as [|i]; simpl in *.
  - injection Hi as ->. rewrite !filter_cons.
    destruct (decide (h = Some track_id)), (decide (h' = Some track_id));
      simpl; lia.
  - specialize (IH i Hi). rewrite !filter_cons.
    destruct (decide (x = Some track_id)); simpl; lia.
Qed.

Lemma holders_snoc_None track_id hs :
  holders track_id (hs ++ [None]) = holders track_id hs.
Proof.
  unfold holders. rewrite filter_app, length_app, filter_cons, filter_nil.
  rewrite decide_False by done. simpl. lia.
Qed.

Lemma moves_quiet h w0 w : quiet w0 w -> moves h w0 h w.
Proof.
  intros [Hr (more & Ht & Hn)] hs i Hi Hc track_id.
  rewrite list_insert_id by done.
  destruct (Hc track_id) as (H1 & H2 & H3).
  destruct (neutral_started track_id (trace w0) more Hn) as [Hs Hp].
  rewrite Ht, Hs, Hp, Hr. done.
Qed.

Lemma moves_trans h0 w0 h1 w1 h2 w2 :
  moves h0 w0 h1 w1 -> moves h1 w1 h2 w2 -> moves h0 w0 h2 w2.
Proof.
  intros H1 H2 hs i Hi Hc.
  rewrite <- (list_insert_insert_eq hs i h2 h1).
  apply H2.
  - apply list_lookup_insert_eq. by eapply lookup_lt_Some.
  - by apply H1.
Qed.

(** Entering the [try] statement: lines 111 and 112, behind the test of
    line 107. *)
Lemma moves_acquire who track_id w :
  track_id ∉ processing_tracks w ->
  moves None w (Some track_id)
    (emit (Printed (LogStarting who track_id))
       (set_tracks ({[track_id]} ∪ processing_tracks w) w)).
Proof.
  intros Hfree hs i Hi Hc other.
  destruct (Hc other) as (Hbal & Hone & Hheld).
  pose proof (holders_insert other hs i None (Some track_id) Hi) as Hh.
  rewrite decide_False in Hh by done.
  simpl. rewrite started_snoc, stopped_snoc. simpl.
  rewrite elem_of_union, elem_of_singleton.
  destruct (decide (track_id = other)) as [<-|Hne].
  - rewrite decide_True in Hh by done.
    rewrite bool_decide_eq_true_2 by done.
    assert (holders track_id hs = 0).
    { destruct (holders track_id hs) as [|[|]] eqn:E; [done| |lia].
      exfalso. apply Hfree, Hheld. done. }
    split; [lia|]. split; [lia|]. split; [lia|]. intros _. by left.
  - rewrite decide_False in Hh by congruence.
    rewrite bool_decide_eq_false_2 by done.
    split; [lia|]. split; [lia|].
    replace (holders other (<[i:=Some track_id]> hs)) with (holders other hs)
      by lia.
    rewrite <- Hheld. split; [|tauto].
    intros [Heq | Hin]; [by symmetry in Heq | done].
Qed.

(** The [finally] clause: lines 172 and 173. *)
Lemma moves_release track_id w :
  moves (Some track_id) w None
    (emit (Printed (LogStopped track_id))
       (set_tracks (processing_tracks w ∖ {[track_id]}) w)).
Proof.
  intros hs i Hi Hc other.
  destruct (Hc other) as (Hbal & Hone & Hheld).
  pose proof (holders_insert other hs i (Some track_id) None Hi) as Hh.
  rewrite (decide_False (P := None = Some other)) in Hh by done.
  simpl. rewrite started_snoc, stopped_snoc. simpl.
  rewrite elem_of_difference, elem_of_singleton.
  destruct (decide (track_id = other)) as [<-|Hne].
  - rewrite decide_True in Hh by done.
    rewrite bool_decide_eq_true_2 by done.
    split; [lia|]. split; [lia|]. split; [tauto | lia].
  - rewrite decide_False in Hh by congruence.
    rewrite bool_decide_eq_false_2 by done.
    split; [lia|]. split; [lia|].
    replace (holders other (<[i:=None]> hs)) with (holders other hs) by lia.
    rewrite <- Hheld. split; [tauto|].
    intros Hin. split; [done|]. by intros ->.
Qed.

(** ** Tasks that follow the protocol *)

Lemma obeys_prefix {A} hr he (r : Res A) h0 w0 h1 w1 :
  moves h0 w0 h1 w1 -> obeys hr he r h1 w1 -> obeys hr he r h0 w0.
Proof.
  intros Hm. destruct r; simpl.
  - by apply moves_trans.
  - by apply moves_trans.
  - intros (h & H1 & H2). exists h. split; [|done].
    by apply (moves_trans _ _ _ _ _ _ Hm).
Qed.

Lemma obeys_bind {A B} hr he h1 (r : Res A) (f : A -> Co B) h0 w0 :
  obeys h1 he r h0 w0 -> (forall a w, obeys hr he (f a w) h1 w) ->
  obeys hr he (bind_res r f) h0 w0.
Proof.
  intros Hr Hf. revert h0 w0 Hr.
  induction r as [a w|e w|w k IH]; intros h0 w0 Hr; simpl in *.
  - by apply (obeys_prefix _ _ _ _ _ h1 w).
  - done.
  - destruct Hr as (h & Hm & Hk). exists h. split; [done|].
    intros w1. by apply IH.
Qed.

Lemma obeys_quiet {A} h (r : Res A) w0 : keeps_quiet r w0 -> obeys h h r h w0.
Proof.
  revert w0. induction r as [a w|e w|w k IH]; intros w0 Hr; simpl in *.
  - by apply moves_quiet.
  - by apply moves_quiet.
  - destruct Hr as [Hq Hk]. exists h. split; [by apply moves_quiet|].
    intros w1. by apply IH.
Qed.

Lemma obeys_try_finally {A} h hf (r : Res A) cleanup g h0 w0 :
  (forall w, cleanup w = Ret tt (g w)) ->
  (forall w, moves h w hf (g w)) ->
  obeys h h r h0 w0 ->
  obeys hf hf (try_finally_res r cleanup) h0 w0.
Proof.
  intros Hc Hg. revert h0 w0.
  induction r as [a w|e w|w k IH]; intros h0 w0 Hr; simpl in *.
  - rewrite Hc. simpl. by apply (moves_trans _ _ h w).
  - rewrite Hc. simpl. by apply (moves_trans _ _ h w).
  - destruct Hr as (h1 & Hm & Hk). exists h1. split; [done|].
    intros w1. by apply IH.
Qed.

Section Protocol.

Variable env : Env.

Lemma track_session_obeys script track_id participant w :
  obeys None None (track_session env script track_id participant w)
    (Some track_id) w.
Proof.
  unfold track_session, try_finally.
  apply (obeys_try_finally (Some track_id) None _ _
           (fun w => emit (Printed (LogStopped track_id))
                       (set_tracks (processing_tracks w ∖ {[track_id]}) w))).
  - reflexivity.
  - intros w1. apply moves_release.
  - apply obeys_quiet. unfold try_except.
    apply keeps_quiet_try_except; [apply run_flows_quiet|].
    intros e w1. unfold print. co_unfold. quiet.
Qed.

Lemma process_audio_track_obeys script track participant w :
  obeys None None (process_audio_track env script track participant w) None w.
Proof.
  unfold process_audio_track. co_unfold.
  destruct (decide (track_id_of participant track ∈ processing_tracks w))
    as [Hin|Hout].
  - rewrite bool_decide_eq_true_2 by done. simpl.
    apply moves_quiet. quiet.
  - rewrite bool_decide_eq_false_2 by done. simpl.
    eapply obeys_prefix; [|apply track_session_obeys].
    by apply moves_acquire.
Qed.

Lemma process_tracks_obeys script_of publications participant w :
  obeys None None (process_tracks env script_of publications participant w)
    None w.
Proof.
  revert w. induction publications as [|publication rest IH]; intros w; simpl.
  - apply moves_quiet, quiet_refl.
  - unfold mbind, co_bind, bind.
    apply (obeys_bind _ _ None); [|intros _ w1; apply IH].
    destruct publication as [track|]; [|apply moves_quiet, quiet_refl].
    destruct (kind track); try apply moves_quiet, quiet_refl.
    apply process_audio_track_obeys.
Qed.

(** ** The loop keeps the state consistent *)

Lemma loop_ok_create_task (c : Co unit) l :
  (forall w, obeys None None (c w) None w) ->
  loop_ok l -> loop_ok (create_task c l).
Proof.
  intros Hc (hs & Hcons & Htasks). exists (hs ++ [None]). split.
  - intros track_id. rewrite holders_snoc_None. apply Hcons.
  - apply Forall2_app; [done|]. by constructor.
Qed.

Lemma loop_ok_quiet l w :
  quiet (world l) w -> loop_ok l -> loop_ok (mkLoop w (tasks l)).
Proof.
  intros Hq (hs & Hcons & Htasks). exists hs. split; [|done].
  destruct hs as [|h hs].
  - (* no task: nothing is held *)
    destruct Hq as [Hr (more & Ht & Hn)]. intros track_id. simpl.
    destruct (Hcons track_id) as (H1 & H2 & Hin).
    destruct (neutral_started track_id (trace (world l)) more Hn) as [Hs Hp].
    by rewrite Ht, Hs, Hp, Hr.
  - rewrite <- (list_insert_id (h :: hs) 0 h) by done.
    by apply (moves_quiet h (world l) w Hq (h :: hs) 0).
Qed.

Lemma loop_ok_resume i l : loop_ok l -> loop_ok (resume i l).
Proof.
  intros (hs & Hcons & Htasks). unfold resume.
  destruct (tasks l !! i) as [[k|]|] eqn:Hi; try by exists hs.
  destruct (Forall2_lookup_r _ _ _ _ _ Htasks Hi) as (h & Hh & Hk).
  simpl in Hk. specialize (Hk (world l)).
  destruct (k (world l)) as [u w'|e w'|w' k']; simpl in *.
  - exists (<[i := None]> hs). split; [by apply Hk|].
    apply Forall2_insert; [done|]. done.
  - exists (<[i := None]> hs). split; [by apply Hk|].
    apply Forall2_insert; [done|]. done.
  - destruct Hk as (h' & Hm & Hk').
    exists (<[i := h']> hs). split; [by apply Hm|].
    apply Forall2_insert; [done|]. done.
Qed.

Lemma loop_ok_deliver s l :
  match s with
  | TrackUnsubscribed track participant =>
      active_sessions (track_id_of participant track) (world l) = 0
  | _ => True
  end ->
  loop_ok l -> loop_ok (deliver env s l).
Proof.
  intros Hidle Hok. destruct s as [i|script track participant|track participant
                                  |script_of participant]; simpl.
  - by apply loop_ok_resume.
  - unfold on_track_subscribed. destruct (kind track); try done.
    apply loop_ok_create_task; [intros w; apply process_audio_track_obeys|].
    apply (loop_ok_quiet l); [quiet | done].
  - unfold on_track_unsubscribed. destruct (kind track); try done.
    assert (Hfree : track_id_of participant track ∉ processing_tracks (world l)).
    { destruct Hok as (hs & Hcons & _).
      destruct (Hcons (track_id_of participant track)) as (H1 & H2 & Hin).
      unfold active_sessions in Hidle. intros Hheld. apply Hin in Hheld. lia. }
    replace (processing_tracks _ ∖ _) with (processing_tracks (world l)).
    + apply (loop_ok_quiet l); [|done]. split; [done|].
      exists [Printed (LogAudioRemoved (identity participant))].
      split; [done|]. by repeat constructor.
    + simpl. apply set_eq. intros x. rewrite elem_of_difference, elem_of_singleton.
      split; [|tauto]. intros Hx. split; [done|]. by intros ->.
  - unfold on_participant_connected.
    apply loop_ok_create_task;
      [intros w; unfold process_participant_tracks;
       apply process_tracks_obeys|].
    apply (loop_ok_quiet l); [quiet | done].
Qed.

Lemma loop_ok_run stimuli :
  forall l,
    unsubscribed_when_idle env stimuli l -> loop_ok l ->
    loop_ok (run_loop env stimuli l).
Proof.
  induction stimuli as [|s rest IH]; intros l Hidle Hok; [done|].
  destruct Hidle as [Hs Hrest]. simpl. apply IH; [done|].
  by apply loop_ok_deliver.
Qed.

Lemma loop_ok_at_most_one l track_id :
  loop_ok l -> active_sessions track_id (world l) <= 1.
Proof.
  intros (hs & Hcons & _). destruct (Hcons track_id) as (H1 & H2 & _).
  unfold active_sessions. lia.
Qed.

End Protocol.

Lemma process_participants_obeys env script_of participants w :
  obeys None None (process_participants env script_of participants w) None w.
Proof.
  revert w. induction participants as [|participant rest IH]; intros w; simpl.
  - apply moves_quiet, quiet_refl.
  - unfold mbind, co_bind, bind.
    apply (obeys_bind _ _ None); [|intros _ w1; apply IH].
    unfold process_participant_tracks. apply process_tracks_obeys.
Qed.

Lemma agent_loop_ok env script_of participants turns w :
  processing_tracks w = ∅ -> trace w = [] ->
  loop_ok (agent_loop env script_of participants turns w).
Proof.
  intros Hr Ht. exists [None; None]. split.
  - intros track_id. unfold agent_loop, world. rewrite Hr, Ht.
    change (holders track_id [None; None]) with 0.
    split; [reflexivity|]. split; [lia|].
    split; [intros Hin; by apply not_elem_of_empty in Hin | discriminate].
  - unfold agent_loop, tasks.
    apply Forall2_cons; split; [|apply Forall2_cons; split; [|apply Forall2_nil_2]].
    + intros w1. apply process_participants_obeys.
    + intros w1. apply obeys_quiet, send_status_updates_quiet.
Qed.

(** ** One session per track id *)

(** The claim C2 concludes that at most one session per id is ever
    active.  [on_track_unsubscribed] discards the id without stopping the
    session, so when the track is subscribed again the test of line 107
    passes and a second session starts beside the first: both tasks are
    suspended in their [try] statement. *)
Lemma two_sessions_of_one_track :
  let l := run_loop calm resubscribed (agent_loop calm (fun _ => hello_script)
                                         [] 0 fresh) in
  active_sessions (track_id_of alice mic) (world l) = 2
  /\ (exists k, tasks l !! 2 = Some (Some k))
  /\ (exists k, tasks l !! 3 = Some (Some k)).
Proof.
  split; [vm_compute; reflexivity|]. split; eexists; vm_compute; reflexivity.
Qed.

(** C2, amended. An invocation of [process_audio_track] for an id that is
    in [processing_tracks] does nothing but print a line: it returns at
    once, without suspension, and leaves the set, the files and the
    packets as they were.  Consequently, as long as no track is
    unsubscribed while a session of its id is open, at most one session
    per id is open at any time, under every schedule of the tasks and
    every sequence of notifications. *)
Theorem duplicate_start_is_noop env :
  (forall script track participant w,
      track_id_of participant track ∈ processing_tracks w ->
      process_audio_track env script track participant w
      = Ret tt (emit (Printed (LogAlready (track_id_of participant track))) w))
  /\ (forall script_of participants turns w stimuli track_id,
        processing_tracks w = ∅ -> trace w = [] ->
        let boot := agent_loop env script_of participants turns w in
        unsubscribed_when_idle env stimuli boot ->
        active_sessions track_id (world (run_loop env stimuli boot)) <= 1).
Proof.
  split.
  - intros script track participant w Hheld.
    unfold process_audio_track. co_unfold.
    by rewrite bool_decide_eq_true_2 by done.
  - intros script_of participants turns w stimuli track_id Hr Ht boot Hidle.
    apply loop_ok_at_most_one.
    apply loop_ok_run; [done|]. by apply agent_loop_ok.
Qed.

Lemma duplicate_start_is_noop_witness :
  process_audio_track calm hello_script mic alice busy
  = Ret tt (emit (Printed (LogAlready (track_id_of alice mic))) busy)
  /\ active_sessions (track_id_of alice mic)
       (world (run_loop calm
                 [ TrackSubscribed hello_script mic alice; Resume 2;
                   TrackSubscribed hello_script mic alice; Resume 3 ]
                 (agent_loop calm (fun _ => hello_script) [] 0 fresh))) <= 1.
Proof.
  split.
  - apply (proj1 (duplicate_start_is_noop calm)).
    unfold busy, set_tracks, processing_tracks. by apply elem_of_singleton.
  - apply (proj2 (duplicate_start_is_noop calm)); [reflexivity..|].
    simpl. done.
Defined.

(** ** Concurrent appends *)

Lemma grows_same file w0 w :
  files w = files w0 -> grows file w0 w [].
Proof.
  intros Hf records Hr. exists []. by rewrite Hf, app_nil_r.
Qed.

Lemma grows_trans file w0 w1 w2 a b :
  grows file w0 w1 a -> grows file w1 w2 b ->
  grows file w0 w2 (a ++ b).
Proof.
  intros H1 H2 records Hr.
  destruct (H1 records Hr) as (new1 & Hr1 & Ht1).
  destruct (H2 _ Hr1) as (new2 & Hr2 & Ht2).
  exists (new1 ++ new2). split; [by rewrite app_assoc|].
  unfold texts_of, as_texts in *. by rewrite !fmap_app, Ht1, Ht2.
Qed.

Lemma appends_prefix {A} file strict now later (r : Res A) w0 w :
  grows file w0 w now ->
  appends file strict later r w ->
  appends file strict (now ++ later) r w0.
Proof.
  intros Hg. destruct r as [a w'|e w'|w' k]; simpl.
  - by apply grows_trans.
  - destruct strict; [|by apply grows_trans].
    intros Hno records Hr. destruct (Hg records Hr) as (new & Hr' & _).
    by apply (Hno _ Hr').
  - intros (now' & later' & -> & Hg' & Hk).
    exists (now ++ now'), later'. split; [by rewrite app_assoc|].
    split; [by apply (grows_trans _ _ w)|done].
Qed.

Lemma appends_bind {A B} file strict o1 o2 (r : Res A) (f : A -> Co B) w0 :
  appends file true o1 r w0 ->
  (forall a w, appends file strict o2 (f a w) w) ->
  appends file strict (o1 ++ o2) (bind_res r f) w0.
Proof.
  intros Hr Hf. revert o1 w0 Hr.
  induction r as [a w|e w|w k IH]; intros o1 w0 Hr; simpl in *.
  - by apply (appends_prefix _ _ _ _ _ _ w).
  - destruct strict; [done|]. intros records Hrec. by destruct (Hr records).
  - destruct Hr as (now & later & -> & Hg & Hk).
    exists now, (later ++ o2). split; [by rewrite app_assoc|].
    split; [done|]. intros w1. by apply IH.
Qed.

Lemma save_transcript_atomic env words who w :
  atomic (save_transcript env words who w).
Proof.
  save_cases; done.
Qed.

Section Appends.

Variable env : Env.
Variable day : pystr.
Variable file : pystr.
Hypothesis same_day : forall n, ymd (clock env n) = day.
Hypothesis room_accepts : forall n, sink_accepts env n = true.
Hypothesis ready : store_ready env (transcript_path env day) file.
Hypothesis dumps_ok : forall n, dump_ok env n = true.

Lemma send_transcription_appends words is_final who score w :
  appends file true [] (send_transcription env words is_final who score w) w.
Proof using room_accepts.
  unfold send_transcription, publish_data.
  destruct (truthy (strip words)); co_unfold; [|by apply grows_same].
  rewrite room_accepts. simpl. exists [], []. split; [done|].
  split; [by apply grows_same|]. intros w1.
  destruct is_final; simpl; by apply grows_same.
Qed.

Lemma save_transcript_appends words who w :
  strip words <> [] ->
  appends file true [words] (save_transcript env words who w) w.
Proof using same_day ready dumps_ok.
  intros Hw.
  destruct (stored_records (files w !! file)) as [records|] eqn:Hr.
  - rewrite (save_transcript_stored env words who w file records Hw);
      [| by rewrite same_day | done | apply dumps_ok].
    simpl. intros records' Hr'. rewrite Hr in Hr'. injection Hr' as <-.
    exists [transcript_entry (isoformat (clock env (S (clock_reads w)))) who
              words (room_name env)].
    split; [|reflexivity].
    unfold saved, emit, set_files, files. by rewrite lookup_insert_eq.
  - pose proof (save_transcript_atomic env words who w) as Ha.
    destruct (save_transcript env words who w) as [u w'|e w'|w' k];
      simpl in *; [| |done];
      intros records Hr'; by rewrite Hr in Hr'.
Qed.

Lemma handle_event_appends participant event w :
  appends file true (option_list (saved_text event))
    (handle_event env participant event w) w.
Proof using same_day room_accepts ready dumps_ok.
  destruct event as [ty [|first rest]].
  - unfold handle_event, has_alternatives, saved_text.
    destruct ty; co_unfold; by apply grows_same.
  - unfold saved_text. destruct ty;
      rewrite ?handle_event_interim, ?handle_event_final;
      try (unfold handle_event; co_unfold; by apply grows_same); simpl.
    + destruct (truthy (strip (text first))); simpl;
        [apply send_transcription_appends | by apply grows_same].
    + destruct (truthy (strip (text first))) eqn:Ht; simpl;
        [|by apply grows_same].
      apply (appends_bind file true [] [text first]);
        [apply send_transcription_appends|].
      intros _ w1. apply save_transcript_appends. by apply truthy_strip.
Qed.

Lemma saved_texts_cons event rest :
  saved_texts (event :: rest)
  = option_list (saved_text event) ++ saved_texts rest.
Proof. unfold saved_texts. simpl. by destruct (saved_text event). Qed.

Lemma process_stt_events_appends participant events stream_end w :
  appends file false (saved_texts events)
    (process_stt_events env participant events stream_end w) w.
Proof using same_day room_accepts ready dumps_ok.
  revert w. induction events as [|event rest IH]; intros w; simpl; co_unfold.
  - exists [], []. split; [done|]. split; [by apply grows_same|].
    intros w1. destruct stream_end; simpl; by apply grows_same.
  - exists [], (saved_texts (event :: rest)). split; [done|].
    split; [by apply grows_same|]. intros w1.
    rewrite saved_texts_cons.
    apply appends_bind; [apply handle_event_appends|].
    intros _ w2. apply IH.
Qed.

(** The pool under a schedule *)

Lemma concat_insert_split (pending : list (list pystr)) i now later :
  pending !! i = Some (now ++ later) ->
  concat pending ≡ₚ now ++ concat (<[i := later]> pending).
Proof.
  revert i. induction pending as [|p pending IH]; intros i Hi; [done|].
  destruct i as [|i]; simpl in *.
  - injection Hi as ->. by rewrite app_assoc.
  - rewrite (IH i Hi). rewrite !app_assoc.
    apply Permutation_app_tail, Permutation_app_comm.
Qed.

Lemma pool_ok_resume all prior i l :
  pool_ok file all prior l -> pool_ok file all prior (resume i l).
Proof.
  intros (pending & new & words & Htasks & Hrec & Htexts & Hperm).
  unfold resume.
  destruct (tasks l !! i) as [[k|]|] eqn:Hi;
    try by exists pending, new, words.
  destruct (Forall2_lookup_r _ _ _ _ _ Htasks Hi) as (owed & Howed & Hk).
  simpl in Hk. specialize (Hk (world l)).
  assert (Hdone : forall w' now later,
            owed = now ++ later -> grows file (world l) w' now ->
            forall t, task_owes file later t ->
            pool_ok file all prior (mkLoop w' (<[i := t]> (tasks l)))).
  { intros w' now later -> Hg t Ht.
    destruct (Hg _ Hrec) as (more & Hrec' & Hmore).
    exists (<[i := later]> pending), (new ++ more), (words ++ now).
    split; [by apply Forall2_insert|].
    split; [by rewrite app_assoc|].
    split; [unfold texts_of, as_texts in *; by rewrite !fmap_app, Htexts, Hmore|].
    rewrite <- Hperm, (concat_insert_split pending i now later Howed).
    by rewrite app_assoc. }
  destruct (k (world l)) as [u w'|e w'|w' k']; simpl in Hk.
  - apply (Hdone w' owed []); [by rewrite app_nil_r|done|done].
  - apply (Hdone w' owed []); [by rewrite app_nil_r|done|done].
  - destruct Hk as (now & later & Heq & Hg & Hk').
    by apply (Hdone w' now later).
Qed.

Lemma pool_ok_schedule all prior schedule :
  forall l,
    pool_ok file all prior l ->
    pool_ok file all prior (run_loop env (Resume <$> schedule) l).
Proof.
  induction schedule as [|i schedule IH]; intros l Hok; [done|].
  simpl. apply IH. by apply pool_ok_resume.
Qed.

Lemma pool_ok_start sessions w prior :
  stored_records (files w !! file) = Some prior ->
  pool_ok file
    (concat ((fun s => saved_texts (stt_events s.2)) <$> sessions)) prior
    (mkLoop w ((fun s => Some (drain_flow env s)) <$> sessions)).
Proof using same_day room_accepts ready dumps_ok.
  intros Hrec.
  exists ((fun s => saved_texts (stt_events s.2)) <$> sessions), [], [].
  split; [|split; [by rewrite app_nil_r|done]].
  simpl. induction sessions as [|s sessions IH]; simpl; constructor; [|done].
  intros w1. apply process_stt_events_appends.
Qed.

Lemma pool_ok_finished all prior l :
  pool_ok file all prior l ->
  Forall (fun t => t = None) (tasks l) ->
  exists new,
    stored_records (files (world l) !! file) = Some (prior ++ new)
    /\ exists words, texts_of new = as_texts words /\ words ≡ₚ all.
Proof.
  intros (pending & new & words & Htasks & Hrec & Htexts & Hperm) Hfin.
  exists new. split; [done|]. exists words. split; [done|].
  assert (Hnil : concat pending = []).
  { clear Hperm. induction Htasks as [|owed t pending ts Ht _ IH]; [done|].
    apply Forall_cons in Hfin as [-> Hfin]. simpl in Ht. subst owed.
    simpl. by apply IH. }
  by rewrite Hnil, app_nil_r in Hperm.
Qed.

End Appends.

Lemma length_concat_singletons {A B} (f : A -> list B) (l : list A) :
  Forall (fun a => length (f a) = 1) l -> length (concat (f <$> l)) = length l.
Proof.
  induction 1 as [|a l Ha _ IH]; [done|].
  rewrite fmap_cons. change (concat (f a :: (f <$> l))) with (f a ++ concat (f <$> l)).
  by rewrite length_app, Ha, IH.
Qed.

(** C8. Any number of sessions whose event-draining flows run
    concurrently on the event loop, each with exactly one final event to
    save, all on the same day, with a room that accepts the packets, a
    store that takes what is written (the directory is there or can be
    made, the day's path leads to a file that can be opened for writing,
    and every dump succeeds) and a file that is missing, holds text
    that [json.load] rejects or holds an array: under every schedule of
    their resumptions, once all of them are over the file holds the
    records it stored before followed by one record per session, with the
    texts of all the sessions.  No append is lost because
    [save_transcript] has no suspension point: its read, append and write
    are one step of the event loop. *)
Theorem concurrent_appends_are_all_kept env day file sessions schedule w
    prior :
  (forall n, ymd (clock env n) = day) ->
  (forall n, sink_accepts env n = true) ->
  store_ready env (transcript_path env day) file ->
  (forall n, dump_ok env n = true) ->
  Forall (fun s => length (saved_texts (stt_events s.2)) = 1) sessions ->
  stored_records (files w !! file) = Some prior ->
  let l :=
    run_loop env (Resume <$> schedule)
      (mkLoop w ((fun s => Some (drain_flow env s)) <$> sessions)) in
  Forall (fun t => t = None) (tasks l) ->
  (forall words who w0, atomic (save_transcript env words who w0))
  /\ exists new,
       stored_records (files (world l) !! file) = Some (prior ++ new)
       /\ length new = length sessions
       /\ exists words,
            texts_of new = as_texts words
            /\ words ≡ₚ
                 concat ((fun s => saved_texts (stt_events s.2)) <$> sessions).
Proof.
  intros Hday Hsink Hready Hdump Hone Hprior l Hover.
  split; [intros; apply save_transcript_atomic|].
  destruct (pool_ok_finished file
              (concat ((fun s => saved_texts (stt_events s.2)) <$> sessions))
              prior l) as (new & Hnew & words & Ht & Hp).
  - apply pool_ok_schedule. by apply (pool_ok_start env day).
  - done.
  - exists new. split; [done|]. split; [|by exists words].
    rewrite <- (length_concat_singletons _ _ Hone), <- Hp.
    apply (f_equal length) in Ht. unfold texts_of, as_texts in Ht.
    by rewrite !length_fmap in Ht.
Qed.

Lemma concurrent_appends_are_all_kept_witness :
  exists new,
    stored_records
      (files (world (run_loop calm (Resume <$> turns_taken)
                       (mkLoop fresh
                          ((fun s => Some (drain_flow calm s)) <$> duet))))
       !! py "standup_2025-03-01.json")
    = Some new
    /\ length new = 2.
Proof.
  destruct (concurrent_appends_are_all_kept calm (py "2025-03-01")
              (py "standup_2025-03-01.json") duet turns_taken fresh [])
    as (_ & new & Hnew & Hlen & _).
  - reflexivity.
  - reflexivity.
  - repeat split.
  - reflexivity.
  - repeat constructor.
  - reflexivity.
  - vm_compute. repeat constructor.
  - exists new. split; [exact Hnew | exact Hlen].
Defined.

(** * Further properties of the agent *)

(** ** Running alone *)

Lemma run_with_nobody {A} (r : Res A) n :
  run_with (fun _ w => w) n r = run_alone r.
Proof.
  revert n. induction r as [a w|e w|w k IH]; intros n; simpl; auto.
Qed.

Lemma run_alone_bind_res {A B} (r : Res A) (f : A -> Co B) :
  run_alone (bind_res r f) =
    match run_alone r with
    | (Returned a, w) => run_alone (f a w)
    | (Raised e, w) => (Raised e, w)
    end.
Proof. induction r as [a w|e w|w k IH]; simpl; auto. Qed.

Lemma run_alone_try_finally {A} (r : Res A) cleanup g :
  (forall w, cleanup w = Ret tt (g w)) ->
  run_alone (try_finally_res r cleanup)
  = ((run_alone r).1, g (run_alone r).2).
Proof.
  intros Hc. rewrite <- !(run_with_nobody _ 0).
  by apply run_with_try_finally.
Qed.

Lemma keeps_quiet_run_alone {A} (r : Res A) w0 :
  keeps_quiet r w0 -> quiet w0 (run_alone r).2.
Proof.
  revert w0. induction r as [a w|e w|w k IH]; intros w0 Hr; simpl in *;
    [done..|].
  destruct Hr as [Hq Hk]. apply (quiet_trans _ w); [done|]. by apply IH.
Qed.

(** ** A session contains its failures *)

Lemma raises_in_try_except {A} e catches (r : Res A) handler :
  (forall e' w, ~ raises_in e (handler e' w)) ->
  raises_in e (try_except_res catches r handler) ->
  raises_in e r /\ catches e = false.
Proof.
  intros Hh. induction r as [a w|e' w|w k IH]; simpl.
  - done.
  - destruct (catches e') eqn:Hc; [intros H; by apply Hh in H|].
    intros ->. done.
  - intros [w1 H]. destruct (IH w1 H) as [H1 H2]. eauto.
Qed.

Lemma raises_in_try_finally {A} e (r : Res A) cleanup g :
  (forall w, cleanup w = Ret tt (g w)) ->
  raises_in e (try_finally_res r cleanup) -> raises_in e r.
Proof.
  intros Hc. induction r as [a w|e' w|w k IH]; simpl.
  - by rewrite Hc.
  - by rewrite Hc.
  - intros [w1 H]. eauto.
Qed.

(** X1. Whatever fails inside a session, the call of
    [process_audio_track] does not raise it: an exception that leaves the
    call, in any run and whatever the other tasks do, is not an
    [Exception] (it is a [BaseException] such as a cancellation). *)
Theorem session_contains_failures env script track participant w e :
  raises_in e (process_audio_track env script track participant w) ->
  is_Exception e = false.
Proof.
  unfold process_audio_track. co_unfold.
  destruct (bool_decide _); simpl; [done|].
  unfold track_session, try_finally. intros H.
  apply (raises_in_try_finally _ _ _
           (fun w => emit (Printed (LogStopped (track_id_of participant track)))
                       (set_tracks (processing_tracks w
                                    ∖ {[track_id_of participant track]}) w)))
    in H; [|reflexivity].
  unfold try_except in H. apply raises_in_try_except in H; [by destruct H|].
  intros e' w'. unfold print. co_unfold. tauto.
Qed.

Lemma session_contains_failures_witness :
  raises_in CancelledError
    (process_audio_track calm cancelled_script mic alice fresh)
  /\ is_Exception CancelledError = false.
Proof.
  assert (H : raises_in CancelledError
                (process_audio_track calm cancelled_script mic alice fresh))
    by reflexivity.
  split; [exact H|].
  exact (session_contains_failures calm cancelled_script mic alice fresh
           CancelledError H).
Defined.

(** ** The scan of the participants *)

Lemma settled_refl w : settled w w.
Proof. split; [done|]. intros; lia. Qed.

Lemma settled_trans w0 w1 w2 : settled w0 w1 -> settled w1 w2 -> settled w0 w2.
Proof.
  intros [Hr1 Hc1] [Hr2 Hc2]. split; [congruence|].
  intros track_id. specialize (Hc1 track_id). specialize (Hc2 track_id). lia.
Qed.

Lemma quiet_settled w0 w : quiet w0 w -> settled w0 w.
Proof.
  intros [Hr (more & Ht & Hn)]. split; [done|]. intros track_id.
  destruct (neutral_started track_id (trace w0) more Hn) as [Hs Hp].
  rewrite Ht, Hs, Hp. lia.
Qed.

Lemma process_audio_track_settled env script track participant w :
  settled w (run_alone (process_audio_track env script track participant w)).2.
Proof.
  unfold process_audio_track. co_unfold.
  set (track_id := track_id_of participant track).
  destruct (decide (track_id ∈ processing_tracks w)) as [Hin|Hout].
  - rewrite bool_decide_eq_true_2 by done. simpl.
    apply quiet_settled. quiet.
  - rewrite bool_decide_eq_false_2 by done. simpl.
    unfold track_session, try_finally.
    rewrite (run_alone_try_finally _ _
               (fun w => emit (Printed (LogStopped track_id))
                           (set_tracks (processing_tracks w ∖ {[track_id]}) w)))
      by reflexivity.
    set (w2 := emit (Printed (LogStarting (identity participant) track_id)) _).
    set (body := try_except _ _ _ w2).
    assert (Hq : quiet w2 (run_alone body).2).
    { apply keeps_quiet_run_alone. unfold body, try_except.
      apply keeps_quiet_try_except; [apply run_flows_quiet|].
      intros e w1. unfold print. co_unfold. quiet. }
    destruct Hq as [Hr (more & Ht & Hn)]. split.
    + simpl. rewrite Hr. simpl. apply set_eq. intros x.
      rewrite elem_of_difference, elem_of_union, elem_of_singleton.
      split; [tauto|]. intros Hx. split; [by right|]. by intros ->.
    + intros other. simpl. rewrite Ht. simpl.
      rewrite !started_snoc, !stopped_snoc.
      destruct (neutral_started other ((trace w ++ [Printed (LogStarting (identity participant) track_id)])) more Hn)
        as [Hs Hp].
      rewrite Hs, Hp, started_snoc, stopped_snoc. simpl. lia.
Qed.

Lemma process_tracks_settled env script_of publications participant w :
  settled w
    (run_alone (process_tracks env script_of publications participant w)).2.
Proof.
  revert w. induction publications as [|publication rest IH]; intros w; simpl.
  - apply settled_refl.
  - unfold mbind, co_bind, bind. rewrite run_alone_bind_res.
    set (first := match publication with Some _ => _ | None => _ end).
    assert (Hfirst : settled w (run_alone (first w)).2).
    { unfold first. destruct publication as [track|]; [|apply settled_refl].
      destruct (kind track); try apply settled_refl.
      apply process_audio_track_settled. }
    destruct (run_alone (first w)) as [[[]|e] w1]; simpl in *; [|done].
    by apply (settled_trans _ w1).
Qed.

(** X2. The scan of [entrypoint], run alone, gives back what it takes:
    when it is over, normally or not, [processing_tracks] is the set it
    found, and every session it opened has been closed. *)
Theorem scan_closes_its_sessions env script_of participants w :
  let after := (run_alone (process_participants env script_of participants w)).2 in
  processing_tracks after = processing_tracks w
  /\ forall track_id,
       started track_id (trace after) + stopped track_id (trace w)
       = started track_id (trace w) + stopped track_id (trace after).
Proof.
  change (settled w
            (run_alone (process_participants env script_of participants w)).2).
  revert w. induction participants as [|participant rest IH]; intros w; simpl.
  - apply settled_refl.
  - unfold mbind, co_bind, bind. rewrite run_alone_bind_res.
    pose proof (process_tracks_settled env script_of
                  (track_publications participant) participant w) as Hfirst.
    unfold process_participant_tracks.
    destruct (run_alone (process_tracks _ _ _ _ w)) as [[[]|e] w1];
      simpl in *; [|done].
    by apply (settled_trans _ w1).
Qed.

(** X3. A participant none of whose publications carries an audio track
    starts no session: the call returns at once in the state it found. *)
Theorem no_audio_no_session env script_of participant w :
  Forall no_audio (track_publications participant) ->
  process_participant_tracks env script_of participant w = Ret tt w.
Proof.
  unfold process_participant_tracks.
  induction 1 as [|publication rest Hp _ IH]; simpl; [done|].
  unfold mbind, co_bind, bind.
  destruct publication as [track|]; simpl in *.
  - destruct (kind track); try done; simpl; apply IH.
  - apply IH.
Qed.

Lemma no_audio_no_session_witness :
  process_participant_tracks calm (fun _ => hello_script) viewer fresh
  = Ret tt fresh.
Proof.
  apply no_audio_no_session. repeat constructor. discriminate.
Defined.

(** ** The frame-forwarding flow *)

(** X4. [push_audio_frames], run alone, forwards every frame of the
    source in the order of the source and then signals the end of input,
    once; when the source fails, the frames before the failure have been
    forwarded, the end of input is not signalled, and the failure is
    raised.  It touches neither the files nor [processing_tracks]. *)
Theorem frames_are_forwarded_in_order frames audio_end w :
  let run := run_alone (push_audio_frames frames audio_end w) in
  run.1 = match audio_end with
          | None => Returned tt
          | Some e => Raised e
          end
  /\ trace run.2
     = trace w ++ (PushedFrame <$> frames)
       ++ match audio_end with
          | None => [EndedInput]
          | Some _ => []
          end
  /\ files run.2 = files w
  /\ processing_tracks run.2 = processing_tracks w.
Proof.
  revert w. induction frames as [|frame rest IH]; intros w; simpl; co_unfold.
  - destruct audio_end; simpl; by rewrite ?app_nil_r.
  - destruct (IH (emit (PushedFrame frame) w)) as (H1 & H2 & H3 & H4).
    split; [exact H1|]. split; [|split; [exact H3 | exact H4]].
    rewrite H2. simpl. by rewrite <- app_assoc.
Qed.

(** ** The event-draining flow *)

Lemma published_snoc t e :
  published (t ++ [e])
  = published t ++ match e with Published d => [d] | _ => [] end.
Proof.
  unfold published. rewrite omap_app. f_equal. by destruct e.
Qed.

Lemma written_snoc t e :
  written (t ++ [e])
  = written t ++ match e with Wrote f c => [(f, c)] | _ => [] end.
Proof.
  unfold written. rewrite omap_app. f_equal. by destruct e.
Qed.

Section Drain.

Variable env : Env.
Variable day : pystr.
Variable file : pystr.
Hypothesis same_day : forall n, ymd (clock env n) = day.
Hypothesis room_accepts : forall n, sink_accepts env n = true.
Hypothesis ready : store_ready env (transcript_path env day) file.
Hypothesis dumps_ok : forall n, dump_ok env n = true.

(** One event, run alone, with a room that accepts, a store that takes
    what is written and a file that stores records. *)
Lemma handle_event_alone participant event w records :
  stored_records (files w !! file) = Some records ->
  exists w' new,
    run_alone (handle_event env participant event w) = (Returned tt, w')
    /\ headline <$> published (trace w')
       = (headline <$> published (trace w))
         ++ (as_headline <$> option_list (sent_message event))
    /\ stored_records (files w' !! file) = Some (records ++ new)
    /\ texts_of new = as_texts (option_list (saved_text event)).
Proof using same_day room_accepts ready dumps_ok.
  intros Hrec.
  assert (Hnone : forall w1,
            files w1 = files w ->
            published (trace w1) = published (trace w) ->
            exists w' new,
              (Returned tt, w1) = (Returned tt, w')
              /\ headline <$> published (trace w')
                 = (headline <$> published (trace w)) ++ []
              /\ stored_records (files w' !! file) = Some (records ++ new)
              /\ texts_of new = as_texts []).
  { intros w1 Hf Hp. exists w1, []. rewrite Hf, Hp, !app_nil_r. done. }
  destruct event as [ty [|first rest]].
  - unfold handle_event, has_alternatives, sent_message, saved_text.
    destruct ty; co_unfold;
      (apply Hnone; [done | simpl; by rewrite ?published_snoc, ?app_nil_r]).
  - unfold sent_message, saved_text. destruct ty;
      rewrite ?handle_event_interim, ?handle_event_final;
      try (unfold handle_event; co_unfold;
           (apply Hnone; [done | simpl; by rewrite ?published_snoc, ?app_nil_r]));
      simpl.
    + destruct (truthy (strip (text first))) eqn:Ht; simpl;
        [|by apply Hnone].
      apply truthy_strip in Ht.
      rewrite (send_transcription_accepted _ _ _ _ _ _ Ht (room_accepts _)).
      simpl. eexists _, []. split; [reflexivity|]. simpl.
      rewrite published_snoc, published_snoc, app_nil_r, fmap_app, app_nil_r.
      done.
    + destruct (truthy (strip (text first))) eqn:Ht; simpl;
        [|by apply Hnone].
      apply truthy_strip in Ht.
      rewrite (send_transcription_accepted _ _ _ _ _ _ Ht (room_accepts _)).
      simpl. set (w1 := emit _ (emit (Published _) _)).
      rewrite (save_transcript_stored env _ _ w1 file records Ht);
        [| by rewrite same_day | done | apply dumps_ok].
      simpl. eexists _, [_]. split; [reflexivity|]. simpl.
      rewrite lookup_insert_eq.
      rewrite !published_snoc, !app_nil_r, fmap_app. done.
Qed.

Lemma process_stt_events_alone_cons participant event rest stream_end w :
  run_alone (process_stt_events env participant (event :: rest) stream_end w)
  = match run_alone (handle_event env participant event w) with
    | (Returned _, w1) =>
        run_alone (process_stt_events env participant rest stream_end w1)
    | (Raised e, w1) => (Raised e, w1)
    end.
Proof. simpl. co_unfold. apply run_alone_bind_res. Qed.

Lemma drain_flow_alone participant stream_end events :
  forall w records,
    stored_records (files w !! file) = Some records ->
    let run :=
      run_alone (process_stt_events env participant events stream_end w) in
    run.1 = match stream_end with
            | None => Returned tt
            | Some e => Raised e
            end
    /\ headline <$> published (trace run.2)
       = (headline <$> published (trace w))
         ++ (as_headline <$> omap sent_message events)
    /\ exists new,
         stored_records (files run.2 !! file) = Some (records ++ new)
         /\ texts_of new = as_texts (saved_texts events).
Proof using same_day room_accepts ready dumps_ok.
  induction events as [|event rest IH]; intros w records Hrec run; unfold run.
  - simpl. co_unfold. split; [by destruct stream_end|]. split.
    + destruct stream_end; simpl; by rewrite app_nil_r.
    + exists []. destruct stream_end; simpl; by rewrite app_nil_r.
  - rewrite process_stt_events_alone_cons, saved_texts_cons.
    destruct (handle_event_alone participant event w records Hrec)
      as (w1 & new1 & -> & Hp1 & Hr1 & Ht1).
    destruct (IH w1 _ Hr1) as (Ho & Hp & new2 & Hr2 & Ht2).
    split; [exact Ho|]. split.
    + rewrite Hp, Hp1, <- app_assoc. f_equal.
      rewrite <- fmap_app. f_equal. simpl. by destruct (sent_message event).
    + exists (new1 ++ new2). split; [by rewrite app_assoc|].
      unfold texts_of, as_texts in *.
      by rewrite !fmap_app, Ht1, Ht2.
Qed.

End Drain.

(** X5. The event-draining flow, run alone with a room that accepts the
    packets, a store that takes what is written (the directory is there
    or can be made, the day's path leads to a file that can be opened for
    writing, and every dump succeeds) and a day's file that is
    missing, holds text that [json.load] rejects or holds an array: the
    messages it publishes are those of the events that carry a text that
    is not blank, in the order of the events, each with its finality; the
    records it appends are those of the final ones among them, in the
    same order; and it ends as the stream ends. *)
Theorem drain_flow_keeps_order env day file participant events stream_end w
    records :
  (forall n, ymd (clock env n) = day) ->
  (forall n, sink_accepts env n = true) ->
  store_ready env (transcript_path env day) file ->
  (forall n, dump_ok env n = true) ->
  stored_records (files w !! file) = Some records ->
  let run :=
    run_alone (process_stt_events env participant events stream_end w) in
  run.1 = match stream_end with
          | None => Returned tt
          | Some e => Raised e
          end
  /\ headline <$> published (trace run.2)
     = (headline <$> published (trace w))
       ++ (as_headline <$> omap sent_message events)
  /\ exists new,
       stored_records (files run.2 !! file) = Some (records ++ new)
       /\ texts_of new = as_texts (saved_texts events).
Proof.
  intros Hday Hsink Hready Hdump Hrec. by apply (drain_flow_alone env day).
Qed.

Lemma drain_flow_keeps_order_witness :
  headline <$>
    published
      (trace (run_alone
                (process_stt_events calm alice (stt_events hello_script) None
                   fresh)).2)
  = [ as_headline (py "hel", false); as_headline (py "hello", false);
      as_headline (py "hello world", true) ].
Proof.
  destruct (drain_flow_keeps_order calm (py "2025-03-01")
              (py "standup_2025-03-01.json") alice
              (stt_events hello_script) None fresh [])
    as (_ & Hp & _); [reflexivity | reflexivity | repeat split | reflexivity
                     | reflexivity |].
  rewrite Hp. reflexivity.
Defined.

(** X6. Only final events reach the store: handling an event of any
    other type, run alone, leaves every file as it was and writes
    nothing; and an event that is neither interim nor final publishes
    nothing either. *)
Theorem only_final_events_are_stored env participant event w :
  type event <> FINAL_TRANSCRIPT ->
  let after := (run_alone (handle_event env participant event w)).2 in
  files after = files w
  /\ written (trace after) = written (trace w)
  /\ (type event <> INTERIM_TRANSCRIPT ->
      published (trace after) = published (trace w)).
Proof.
  intros Hty after. unfold after. clear after.
  destruct event as [ty alts]. simpl in *.
  destruct ty; [| | |..].
  - (* the start of speech *) unfold handle_event. simpl. done.
  - (* an interim result *)
    destruct alts as [|first rest].
    + unfold handle_event, has_alternatives. simpl. done.
    + rewrite handle_event_interim.
      destruct (truthy (strip (text first))) eqn:Ht; [|done].
      unfold send_transcription, publish_data. rewrite Ht. co_unfold.
      destruct (sink_accepts env (sends w)); simpl;
        rewrite ?written_snoc, ?app_nil_r; done.
  - done.
  - (* the end of speech *) unfold handle_event. co_unfold.
    rewrite written_snoc, published_snoc, !app_nil_r. done.
  - unfold handle_event. simpl. done.
Qed.

Lemma only_final_events_are_stored_witness :
  files (run_alone (handle_event calm alice (said INTERIM_TRANSCRIPT "hel")
                      fresh)).2
  = files fresh.
Proof.
  apply (only_final_events_are_stored calm alice
           (said INTERIM_TRANSCRIPT "hel") fresh).
  discriminate.
Defined.

(** X7. A packet that the room refuses ends the event-draining flow: the
    flow raises the failure of the send at that event, the record of that
    event is not written when it is a final one, and the events after it
    are never handled. *)
Theorem refused_packet_ends_the_flow env participant event rest stream_end
    sent w :
  sent_message event = Some sent ->
  sink_accepts env (sends w) = false ->
  run_alone (process_stt_events env participant (event :: rest) stream_end w)
  = (Raised SendError, count_send (tick_clock w)).
Proof.
  intros Hsent Hs. rewrite process_stt_events_alone_cons.
  destruct event as [ty [|first tail]]; unfold sent_message in Hsent;
    simpl in Hsent; destruct ty; try done;
    destruct (truthy (strip (text first))) eqn:Ht; try done;
    apply truthy_strip in Ht.
  - rewrite handle_event_interim, (proj2 (truthy_strip _) Ht).
    by rewrite (send_transcription_refused _ _ _ _ _ _ Ht Hs).
  - by rewrite (refused_final_is_not_saved env participant first tail w Ht Hs).
Qed.

Lemma refused_packet_ends_the_flow_witness :
  run_alone (process_stt_events stormy alice (stt_events hello_script) None
               fresh)
  = (Raised SendError, count_send (tick_clock fresh)).
Proof.
  by apply (refused_packet_ends_the_flow stormy alice _ _ None (py "hel", false)).
Defined.

(** ** The transcript store, further *)

(** X8. When the day's file holds JSON that is not an array (the
    directory being there and the path leading to the file), a final
    event is published but not stored: the message goes out, then
    [save_transcript] raises [AttributeError] at [append], before the file
    is opened for writing, so the file keeps its content. *)
Theorem final_transcript_lost_on_non_array env participant first rest w
    file j :
  strip (text first) <> [] ->
  sink_accepts env (sends w) = true ->
  let filename :=
    transcript_path env (ymd (clock env (1 + clock_reads w))) in
  mkdir_ok env = true ->
  locate env filename = Some file ->
  files w !! file = Some (Document j) ->
  (forall items, j <> JList items) ->
  let run :=
    run_alone (handle_event env participant
                 {| type := FINAL_TRANSCRIPT; alternatives := first :: rest |}
                 w) in
  run.1 = Raised AttributeError
  /\ published (trace run.2)
     = published (trace w)
       ++ [transcription_message (text first) true (identity participant)
             (isoformat (clock env (clock_reads w))) (confidence first)]
  /\ written (trace run.2) = written (trace w)
  /\ files run.2 = files w.
Proof.
  intros Ht Hs filename Hmk Hloc Hf Hj run. unfold run. clear run.
  rewrite handle_event_final, (proj2 (truthy_strip _) Ht).
  rewrite (send_transcription_accepted _ _ _ _ _ _ Ht Hs). simpl.
  set (w1 := emit _ (emit (Published _) _)).
  rewrite (save_transcript_not_array env _ _ w1 file j Ht Hmk Hloc Hf Hj).
  simpl. rewrite !published_snoc, !written_snoc, !app_nil_r. done.
Qed.

Lemma final_transcript_lost_on_non_array_witness :
  (run_alone (handle_event calm alice (said FINAL_TRANSCRIPT "hello world")
                clobbered)).1
  = Raised AttributeError.
Proof.
  apply (final_transcript_lost_on_non_array calm alice
           {| language := py "en-US"; text := py "hello world";
              confidence := Some 0.875%float |} [] clobbered
           (py "standup_2025-03-01.json") (JDict [])).
  - vm_compute. discriminate.
  - reflexivity.
  - reflexivity.
  - reflexivity.
  - vm_compute. reflexivity.
  - discriminate.
Defined.

(** X9. Two calls of [save_transcript] in a row, on the same day, with a
    store that takes what is written and a file that is missing, holds
    text that [json.load] rejects or holds an array: they leave the file
    with the records it stored before followed by the two new ones in the
    order of the calls.  After the first call the file holds an array, so
    the second finds it well formed. *)
Theorem appends_accumulate env day file words1 who1 words2 who2 w prior :
  strip words1 <> [] ->
  strip words2 <> [] ->
  ymd (clock env (clock_reads w)) = day ->
  ymd (clock env (2 + clock_reads w)) = day ->
  store_ready env (transcript_path env day) file ->
  (forall n, dump_ok env n = true) ->
  stored_records (files w !! file) = Some prior ->
  let run :=
    run_alone (bind (save_transcript env words1 who1)
                 (fun _ => save_transcript env words2 who2) w) in
  run.1 = Returned tt
  /\ files run.2 !! file
     = Some (Document (JList
         (prior
          ++ [ transcript_entry (isoformat (clock env (1 + clock_reads w)))
                 who1 words1 (room_name env);
               transcript_entry (isoformat (clock env (3 + clock_reads w)))
                 who2 words2 (room_name env) ]))).
Proof.
  intros H1 H2 Hd1 Hd2 Hready Hdump Hrec run. unfold run, bind. clear run.
  change (2 + clock_reads w) with (S (S (clock_reads w))) in Hd2.
  rewrite (save_transcript_stored env words1 who1 w file prior H1);
    [| by rewrite Hd1 | done | apply Hdump].
  rewrite Hd1. simpl.
  set (w1 := saved file _ _ w).
  rewrite (save_transcript_stored env words2 who2 w1 file
             (prior ++ [transcript_entry (isoformat (clock env (S (clock_reads w))))
                          who1 words1 (room_name env)]) H2).
  - simpl. split; [done|].
    rewrite lookup_insert_eq, <- app_assoc. done.
  - simpl. by rewrite Hd2.
  - simpl. by rewrite lookup_insert_eq.
  - apply Hdump.
Qed.

Lemma appends_accumulate_witness :
  exists records,
    files (run_alone
             (bind (save_transcript calm (py "one") (py "alice"))
                (fun _ => save_transcript calm (py "two") (py "bob"))
                fresh)).2
    !! py "standup_2025-03-01.json" = Some (Document (JList records))
    /\ length records = 2.
Proof.
  destruct (appends_accumulate calm (py "2025-03-01")
              (py "standup_2025-03-01.json") (py "one") (py "alice")
              (py "two") (py "bob") fresh []) as [_ Hf].
  - vm_compute. discriminate.
  - vm_compute. discriminate.
  - reflexivity.
  - reflexivity.
  - repeat split.
  - reflexivity.
  - reflexivity.
  - eexists. split; [exact Hf | reflexivity].
Defined.

Lemma path_root_not_sep c rest :
  is_sep c = false -> path_root (c :: rest) = None.
Proof. intros H. destruct rest as [|c2 [|c3 rest]]; simpl; by rewrite H. Qed.

(** [pathlib] drops a leading [./] of a relative name. *)
Lemma transcript_dir_join_dot_slash c rest :
  is_sep c = false ->
  transcript_dir_join (46 :: 47 :: c :: rest)%N
  = transcript_dir_join (c :: rest).
Proof.
  intros Hc. unfold transcript_dir_join.
  rewrite (path_root_not_sep c rest Hc).
  rewrite (path_root_not_sep 46%N (47%N :: c :: rest)) by reflexivity.
  (* the first component is [.], which the filter drops *)
  reflexivity.
Qed.

(** X10. The name [room_date.json] separates rooms and days as names: for
    dates written with the same number of characters, as
    [strftime('%Y-%m-%d')] writes them, two different rooms or two
    different days never have the same name.  It does not separate them
    as files: [pathlib] drops a leading [./] when it joins the name to
    the transcripts directory, so a room [r] and the room [./r] are given
    one and the same path. *)
Theorem names_differ_but_paths_coincide :
  (forall room1 day1 room2 day2,
      length day1 = length day2 ->
      transcript_filename room1 day1 = transcript_filename room2 day2 ->
      room1 = room2 /\ day1 = day2)
  /\ (forall room day,
        (forall rest, room <> py "/" ++ rest) ->
        transcript_filename (py "./" ++ room) day
        <> transcript_filename room day
        /\ transcript_dir_join (transcript_filename (py "./" ++ room) day)
           = transcript_dir_join (transcript_filename room day)).
Proof.
  split.
  - unfold transcript_filename. intros room1 day1 room2 day2 Hlen Heq.
    apply app_inj_2 in Heq as [Hroom Heq].
    + split; [done|]. apply app_inj_1 in Heq as [_ Heq]; [|done].
      by apply app_inv_tail in Heq.
    + rewrite !length_app, Hlen. done.
  - intros room day Hrel. split.
    + unfold transcript_filename. intros Heq.
      apply (f_equal length) in Heq. rewrite !length_app in Heq.
      simpl in Heq. lia.
    + change (transcript_filename (py "./" ++ room) day)
        with (46%N :: 47%N :: transcript_filename room day).
      destruct room as [|c room].
      * by apply transcript_dir_join_dot_slash.
      * change (transcript_filename (c :: room) day)
          with (c :: transcript_filename room day).
        apply transcript_dir_join_dot_slash.
        destruct (is_sep c) eqn:Hc; [|done].
        apply N.eqb_eq in Hc. subst c. by destruct (Hrel room).
Qed.

Lemma names_differ_but_paths_coincide_witness :
  transcript_filename (py "standup") (py "2025-03-01")
  <> transcript_filename (py "standup") (py "2025-03-02")
  /\ transcript_dir_join (transcript_filename (py "./standup") (py "2025-03-01"))
     = transcript_dir_join (transcript_filename (py "standup") (py "2025-03-01")).
Proof.
  split.
  - intros Heq.
    apply (proj1 names_differ_but_paths_coincide) in Heq as [_ Heq];
      [|reflexivity].
    discriminate.
  - apply (proj2 names_differ_but_paths_coincide (py "standup")
             (py "2025-03-01")).
    intros rest. discriminate.
Defined.

(** ** Unsubscribing and subscribing again *)



(** ** The heartbeat, further *)

Lemma run_alone_send_status_updates env turns w :
  run_alone (send_status_updates env (S turns) w) =
    let w1 := emit (Slept 30) w in
    if sink_accepts env (sends w1) then
      run_alone
        (send_status_updates env turns
           (emit (Printed (LogStatus (size (processing_tracks w1))))
              (emit (Published
                       (status_message (size (processing_tracks w1))
                          (isoformat (clock env (clock_reads w1)))))
                    (count_send (tick_clock w1)))))
    else (Raised SendError, count_send (tick_clock w1)).
Proof.
  simpl. unfold status_update, sleep, publish_data. co_unfold.
  by destruct (sink_accepts env _).
Qed.

(** X12. The heartbeat only reports: run alone for any number of turns,
    whether the room accepts its packets or not, it leaves
    [processing_tracks] and the files as they were, writes nothing, and
    every packet it publishes is a status message. *)
Theorem heartbeat_only_reports env turns w :
  let after := (run_alone (send_status_updates env turns w)).2 in
  processing_tracks after = processing_tracks w
  /\ files after = files w
  /\ written (trace after) = written (trace w)
  /\ exists news,
       published (trace after) = published (trace w) ++ news
       /\ Forall (fun m => field "type" m = Some (JStr (py "agent_status")))
                 news.
Proof.
  revert w. induction turns as [|turns IH]; intros w after; unfold after.
  - simpl. repeat split; try done. exists []. by rewrite app_nil_r.
  - rewrite run_alone_send_status_updates. cbv zeta.
    destruct (sink_accepts env _).
    + destruct (IH (emit (Printed (LogStatus (size (processing_tracks (emit (Slept 30) w)))))
                      (emit (Published
                               (status_message
                                  (size (processing_tracks (emit (Slept 30) w)))
                                  (isoformat (clock env (clock_reads (emit (Slept 30) w))))))
                            (count_send (tick_clock (emit (Slept 30) w))))))
        as (H1 & H2 & H3 & news & H4 & H5).
      split; [exact H1|]. split; [exact H2|]. split.
      * rewrite H3. simpl. by rewrite !written_snoc, !app_nil_r.
      * eexists (_ :: news). split.
        -- rewrite H4. simpl.
           rewrite !published_snoc, !app_nil_r, <- app_assoc. reflexivity.
        -- by constructor.
    + simpl. rewrite written_snoc, published_snoc, !app_nil_r.
      repeat split; try done. exists []. by rewrite app_nil_r.
Qed.

(** ** A whole session and the store *)

Lemma appends_run_alone {A} file strict owed (r : Res A) w0 records :
  appends file strict owed r w0 ->
  stored_records (files w0 !! file) = Some records ->
  exists new,
    stored_records (files (run_alone r).2 !! file) = Some (records ++ new)
    /\ texts_of new = as_texts owed.
Proof.
  revert owed w0 records.
  induction r as [a w|e w|w k IH]; intros owed w0 records Hr Hrec; simpl in *.
  - by apply Hr.
  - destruct strict; [by destruct (Hr records)|]. by apply Hr.
  - destruct Hr as (now & later & -> & Hg & Hk).
    destruct (Hg records Hrec) as (new1 & Hrec1 & Ht1).
    destruct (IH w later w _ (Hk w) Hrec1) as (new2 & Hrec2 & Ht2).
    exists (new1 ++ new2). split; [by rewrite app_assoc|].
    unfold texts_of, as_texts in *. by rewrite !fmap_app, Ht1, Ht2.
Qed.

Lemma grows_vacuous file w0 w words :
  (forall records,
      stored_records (files w0 !! file) = Some records -> False) ->
  grows file w0 w words.
Proof. intros Hno records Hrec. by destruct (Hno records). Qed.

Lemma appends_run_out file owed r next w0 :
  appends file false owed r w0 ->
  (forall w, appends file false [] (next w) w) ->
  appends file false owed (run_out r next) w0.
Proof.
  intros Hr Hn. revert owed w0 Hr.
  induction r as [a w|e w|w k IH]; intros owed w0 Hr; simpl in *.
  - exists owed, []. by rewrite app_nil_r.
  - exists owed, []. rewrite app_nil_r. split; [done|]. split; [done|].
    intros w1. simpl. by apply grows_same.
  - destruct Hr as (now & later & -> & Hg & Hk).
    exists now, later. split; [done|]. split; [done|].
    intros w1. by apply IH.
Qed.

Lemma appends_run_out_strict file owed r next w0 :
  appends file true [] r w0 ->
  (forall w, appends file false owed (next w) w) ->
  appends file false owed (run_out r next) w0.
Proof.
  intros Hr Hn. revert w0 Hr.
  induction r as [a w|e w|w k IH]; intros w0 Hr; simpl in *.
  - exists [], owed. done.
  - exists owed, []. rewrite app_nil_r. split; [done|].
    split; [by apply grows_vacuous|]. intros w1. simpl. by apply grows_same.
  - destruct Hr as (now & later & Heq & Hg & Hk).
    symmetry in Heq. apply app_eq_nil in Heq as [-> ->].
    exists [], owed. split; [done|]. split; [done|].
    intros w1. by apply IH.
Qed.

Lemma grows_files file w0 w w' owed :
  files w' = files w -> grows file w0 w owed -> grows file w0 w' owed.
Proof.
  intros Hf Hg records Hrec. destruct (Hg records Hrec) as (new & H1 & H2).
  exists new. by rewrite Hf.
Qed.

Lemma appends_try_except file owed catches (r : Res unit) handler g w0 :
  (forall e w, handler e w = Ret tt (g e w)) ->
  (forall e w, files (g e w) = files w) ->
  appends file false owed r w0 ->
  appends file false owed (try_except_res catches r handler) w0.
Proof.
  intros Hh Hg. revert owed w0.
  induction r as [a w|e w|w k IH]; intros owed w0 Hr; simpl in *.
  - done.
  - destruct (catches e); [|done]. rewrite Hh. simpl.
    by apply (grows_files _ _ w).
  - destruct Hr as (now & later & -> & Hgr & Hk).
    exists now, later. split; [done|]. split; [done|]. intros w1. by apply IH.
Qed.

Lemma appends_try_finally file owed (r : Res unit) cleanup g w0 :
  (forall w, cleanup w = Ret tt (g w)) ->
  (forall w, files (g w) = files w) ->
  appends file false owed r w0 ->
  appends file false owed (try_finally_res r cleanup) w0.
Proof.
  intros Hc Hg. revert owed w0.
  induction r as [a w|e w|w k IH]; intros owed w0 Hr; simpl in *.
  - rewrite Hc. simpl. by apply (grows_files _ _ w).
  - rewrite Hc. simpl. by apply (grows_files _ _ w).
  - destruct Hr as (now & later & -> & Hgr & Hk).
    exists now, later. split; [done|]. split; [done|]. intros w1. by apply IH.
Qed.

Lemma appends_gather_loop file picks :
  forall owed a b w,
    drains file owed a -> forwards file b ->
    appends file false owed (gather_loop picks a b w) w.
Proof.
  assert (Hdrain : forall owed (r : Res unit) w (rest : Child -> World -> Res unit),
            appends file false owed r w ->
            (forall later a' w2, drains file later a' ->
                appends file false later (rest a' w2) w2) ->
            appends file false owed
              match r with
              | Ret _ w1 => Yield w1 (fun w2 => rest Done w2)
              | Exn e w1 => Yield w1 (fun w2 => Exn e w2)
              | Yield w1 k' => Yield w1 (fun w2 => rest (Running k') w2)
              end w).
  { intros owed r w rest Hr Hrest. destruct r as [u w1|e w1|w1 k']; simpl in *.
    - exists owed, []. rewrite app_nil_r. split; [done|]. split; [done|].
      intros w2. by apply Hrest.
    - exists owed, []. rewrite app_nil_r. split; [done|]. split; [done|].
      intros w2. simpl. by apply grows_same.
    - destruct Hr as (now & later & -> & Hg & Hk).
      exists now, later. split; [done|]. split; [done|].
      intros w2. by apply Hrest. }
  assert (Hforward : forall owed (r : Res unit) w (rest : Child -> World -> Res unit),
            appends file true [] r w ->
            (forall b' w2, forwards file b' ->
                appends file false owed (rest b' w2) w2) ->
            appends file false owed
              match r with
              | Ret _ w1 => Yield w1 (fun w2 => rest Done w2)
              | Exn e w1 => Yield w1 (fun w2 => Exn e w2)
              | Yield w1 k' => Yield w1 (fun w2 => rest (Running k') w2)
              end w).
  { intros owed r w rest Hr Hrest. destruct r as [u w1|e w1|w1 k']; simpl in *.
    - exists [], owed. split; [done|]. split; [done|].
      intros w2. by apply Hrest.
    - exists owed, []. rewrite app_nil_r. split; [done|].
      split; [by apply grows_vacuous|]. intros w2. simpl. by apply grows_same.
    - destruct Hr as (now & later & Heq & Hg & Hk).
      symmetry in Heq. apply app_eq_nil in Heq as [-> ->].
      exists [], owed. split; [done|]. split; [done|].
      intros w2. by apply Hrest. }
  induction picks as [|pick picks IH]; intros owed a b w Ha Hb.
  - destruct a as [ka|], b as [kb|]; simpl in *.
    + apply appends_run_out; [apply Ha|]. intros w1.
      apply appends_run_out_strict; [apply Hb|].
      intros w2. simpl. by apply grows_same.
    + apply appends_run_out; [apply Ha|]. intros w1. simpl. by apply grows_same.
    + subst owed. apply appends_run_out_strict; [apply Hb|].
      intros w2. simpl. by apply grows_same.
    + subst owed. by apply grows_same.
  - destruct a as [ka|], b as [kb|]; simpl in *.
    + destruct pick.
      * apply (Hdrain owed (ka w) w (fun a' => gather_loop picks a' (Running kb)));
          [apply Ha|]. intros later a' w2 Ha'. by apply IH.
      * apply (Hforward owed (kb w) w (fun b' => gather_loop picks (Running ka) b'));
          [apply Hb|]. intros b' w2 Hb'. by apply IH.
    + apply (Hdrain owed (ka w) w (fun a' => gather_loop picks a' Done));
        [apply Ha|]. intros later a' w2 Ha'. by apply IH.
    + apply (Hforward owed (kb w) w (fun b' => gather_loop picks Done b'));
        [apply Hb|]. intros b' w2 Hb'. by apply IH.
    + subst owed. by apply grows_same.
Qed.

Lemma push_audio_frames_appends file frames w :
  appends file true [] (push_audio_frames frames None w) w.
Proof.
  revert w. induction frames as [|frame rest IH]; intros w; simpl; co_unfold.
  - exists [], []. split; [done|]. split; [by apply grows_same|].
    intros w1. simpl. by apply grows_same.
  - exists [], []. split; [done|]. split; [by apply grows_same|].
    intros w1.
    apply (appends_prefix file true [] [] _ w1 (emit (PushedFrame frame) w1));
      [by apply grows_same | apply IH].
Qed.

Section Sessions.

Variable env : Env.
Variable day : pystr.
Variable file : pystr.
Hypothesis same_day : forall n, ymd (clock env n) = day.
Hypothesis room_accepts : forall n, sink_accepts env n = true.
Hypothesis ready : store_ready env (transcript_path env day) file.
Hypothesis dumps_ok : forall n, dump_ok env n = true.

Lemma track_session_appends script track_id participant w :
  steady script ->
  appends file false (saved_texts (stt_events script))
    (track_session env script track_id participant w) w.
Proof using same_day room_accepts ready dumps_ok.
  intros [Hopen Haudio]. unfold track_session, try_finally, try_except.
  apply (appends_try_finally _ _ _ _
           (fun w => emit (Printed (LogStopped track_id))
                       (set_tracks (processing_tracks w ∖ {[track_id]}) w)));
    [reflexivity | done |].
  apply (appends_try_except _ _ _ _ _
           (fun e w => emit (Printed (LogError (identity participant) e)) w));
    [reflexivity | done |].
  unfold run_flows. rewrite Hopen, Haudio. simpl.
  exists [], (saved_texts (stt_events script)). split; [done|].
  split; [by apply grows_same|]. intros w1.
  apply appends_gather_loop; simpl; intros w2.
  - by apply (process_stt_events_appends env day).
  - apply push_audio_frames_appends.
Qed.

Lemma sessions_start sessions w prior :
  Forall (fun s => steady s.2) sessions ->
  stored_records (files w !! file) = Some prior ->
  pool_ok file
    (concat ((fun s => saved_texts (stt_events s.2)) <$> sessions)) prior
    (mkLoop w ((fun s => Some (track_session env s.2 s.1.1 s.1.2)) <$> sessions)).
Proof using same_day room_accepts ready dumps_ok.
  intros Hsteady Hrec.
  exists ((fun s => saved_texts (stt_events s.2)) <$> sessions), [], [].
  split; [|split; [by rewrite app_nil_r|done]].
  simpl. induction Hsteady as [|s sessions Hs _ IH]; simpl; constructor; [|done].
  intros w1. by apply track_session_appends.
Qed.

End Sessions.

(** X13. A session whose stream opens and whose audio source does not
    fail, run alone from a state in which its id is free, with a room that
    accepts the packets, a store that takes what is written (the
    directory is there or can be made, the day's path leads to a file
    that can be opened for writing, and every dump succeeds) and a
    day's file that is missing, holds text that [json.load] rejects or
    holds an array: whatever the order in which the event loop resumes its
    two flows, when the call is over the file holds the records it stored
    before followed by one record for each final event with a text that
    is not blank, in the order of the events. *)
Theorem session_stores_every_final env day file script track participant w
    records :
  (forall n, ymd (clock env n) = day) ->
  (forall n, sink_accepts env n = true) ->
  store_ready env (transcript_path env day) file ->
  (forall n, dump_ok env n = true) ->
  steady script ->
  track_id_of participant track ∉ processing_tracks w ->
  stored_records (files w !! file) = Some records ->
  let after :=
    (run_alone (process_audio_track env script track participant w)).2 in
  exists new,
    stored_records (files after !! file) = Some (records ++ new)
    /\ texts_of new = as_texts (saved_texts (stt_events script)).
Proof.
  intros Hday Hsink Hready Hdump Hsteady Hfree Hrec after. unfold after.
  unfold process_audio_track. co_unfold.
  rewrite bool_decide_eq_false_2 by done. simpl.
  eapply appends_run_alone; [by apply (track_session_appends env day)|].
  exact Hrec.
Qed.

Lemma session_stores_every_final_witness :
  exists new,
    stored_records
      (files (run_alone (process_audio_track calm hello_script mic alice fresh)).2
       !! py "standup_2025-03-01.json")
    = Some new
    /\ texts_of new = as_texts [py "hello world"].
Proof.
  destruct (session_stores_every_final calm (py "2025-03-01")
              (py "standup_2025-03-01.json") hello_script mic alice fresh [])
    as (new & H1 & H2).
  - reflexivity.
  - reflexivity.
  - repeat split.
  - reflexivity.
  - by split.
  - simpl. apply not_elem_of_empty.
  - reflexivity.
  - exists new. split; [exact H1 | exact H2].
Defined.

(** X14. Any number of whole sessions (their [try] statements, with both
    flows and the teardown) that run concurrently on the event loop, with
    streams that open and audio sources that do not fail, on the same day,
    with a room that accepts the packets, a store that takes what is
    written (the directory is there or can be made, the day's path leads
    to a file that can be opened for writing, and every dump
    succeeds) and a day's file that is missing, holds text that
    [json.load] rejects or holds an array: under every schedule of the
    tasks and every interleaving of the flows inside each session, once
    all of them are over the file holds the records it stored before
    followed by one record for each final event with a text that is not
    blank, of every session. *)
Theorem concurrent_sessions_keep_every_record env day file sessions schedule
    w prior :
  (forall n, ymd (clock env n) = day) ->
  (forall n, sink_accepts env n = true) ->
  store_ready env (transcript_path env day) file ->
  (forall n, dump_ok env n = true) ->
  Forall (fun s => steady s.2) sessions ->
  stored_records (files w !! file) = Some prior ->
  let l :=
    run_loop env (Resume <$> schedule)
      (mkLoop w
         ((fun s => Some (track_session env s.2 s.1.1 s.1.2)) <$> sessions)) in
  Forall (fun t => t = None) (tasks l) ->
  exists new words,
    stored_records (files (world l) !! file) = Some (prior ++ new)
    /\ texts_of new = as_texts words
    /\ words ≡ₚ
         concat ((fun s => saved_texts (stt_events s.2)) <$> sessions).
Proof.
  intros Hday Hsink Hready Hdump Hsteady Hprior l Hover.
  destruct (pool_ok_finished file
              (concat ((fun s => saved_texts (stt_events s.2)) <$> sessions))
              prior l) as (new & Hnew & words & Ht & Hp).
  - apply pool_ok_schedule. by apply (sessions_start env day).
  - done.
  - by exists new, words.
Qed.

Lemma concurrent_sessions_keep_every_record_witness :
  exists new,
    stored_records
      (files (world (run_loop calm (Resume <$> (turns_taken ++ turns_taken ++ turns_taken))
                       (mkLoop fresh
                          ((fun s => Some (track_session calm s.2 s.1.1 s.1.2))
                             <$> chorus))))
       !! py "standup_2025-03-01.json")
    = Some new
    /\ length new = 2.
Proof.
  destruct (concurrent_sessions_keep_every_record calm (py "2025-03-01")
              (py "standup_2025-03-01.json") chorus
              (turns_taken ++ turns_taken ++ turns_taken) fresh [])
    as (new & words & Hnew & Ht & Hp).
  - reflexivity.
  - reflexivity.
  - repeat split.
  - reflexivity.
  - repeat constructor.
  - reflexivity.
  - vm_compute. repeat constructor.
  - exists new. split; [exact Hnew|].
    apply (f_equal length) in Ht. unfold texts_of, as_texts in Ht.
    rewrite !length_fmap in Ht. rewrite Ht, Hp. reflexivity.
Defined.

(** ** What the set of held ids means *)

(** X15. As long as no track is unsubscribed while a session of its id
    is open, [processing_tracks] is exactly the set of the ids that have
    an open session, under every schedule of the tasks and every sequence
    of notifications: an id is in the set if and only if one session of
    it is open. *)
Theorem registry_is_the_open_sessions env script_of participants turns w
    stimuli track_id :
  processing_tracks w = ∅ -> trace w = [] ->
  let boot := agent_loop env script_of participants turns w in
  unsubscribed_when_idle env stimuli boot ->
  let l := run_loop env stimuli boot in
  track_id ∈ processing_tracks (world l)
  <-> active_sessions track_id (world l) = 1.
Proof.
  intros Hr Ht boot Hidle l.
  assert (Hok : loop_ok l).
  { apply loop_ok_run; [done|]. by apply agent_loop_ok. }
  destruct Hok as (hs & Hcons & _).
  destruct (Hcons track_id) as (Hbal & Hone & Hheld).
  unfold active_sessions. rewrite Hheld. lia.
Qed.

Lemma registry_is_the_open_sessions_witness :
  track_id_of alice mic
  ∈ processing_tracks (world (run_loop calm two_tracks
                                (agent_loop calm (fun _ => hello_script) [] 0
                                   fresh))).
Proof.
  apply (registry_is_the_open_sessions calm (fun _ => hello_script) [] 0 fresh
           two_tracks); [reflexivity | reflexivity | simpl; tauto |].
  vm_compute. reflexivity.
Defined.
